(** * translate-backend: a read-through translation cache in front of the
    [trans] command line tool (cmd/translate/main.go).

    The development embeds the request handler, the multi-engine fallback
    ([fetch], [invokeTrans]), engine discovery ([getEngines]), the two cache
    sweeps ([removeEmptyTranslations], [removeNonPrintableTranslations]) and
    the notification loop.  Go strings are byte strings.  The Redis server,
    the package variable [engines] and the effects a function performs
    (processes run, Redis commands, channel sends) are explicit state; the
    external [trans] process and the Telegram sink are explicit inputs.
    Lines printed with [fmt.Println], flag parsing and the HTTP framework
    are left out. *)

From Stdlib Require Import ZArith Lia.
From stdpp Require Import gmap strings list fin_maps pretty.

Local Open Scope string_scope.
Local Open Scope list_scope.

(** ** Go values *)

(** A Go [error] is kept by its message; [None] is the nil error. *)
Definition error := string.

(** A [rune] is a Unicode code point. *)
Definition rune := Z.

Definition byte_val (a : Ascii.ascii) : Z := Z.of_N (Ascii.N_of_ascii a).

(** The one-byte string ["\n"]. *)
Definition newline : string := String (Ascii.ascii_of_nat 10) "".

(** ** The parts of the Go standard library the program calls *)

Module Strings.

(** [strings.Join(elems, sep)]. *)
Fixpoint Join (elems : list string) (sep : string) : string :=
  match elems with
  | [] => ""
  | [e] => e
  | e :: rest => e +:+ sep +:+ Join rest sep
  end.

(** [strings.Split(s, "\n")]: the pieces between newline bytes; the empty
    string gives one empty piece. *)
Fixpoint SplitLines (s : string) : list string :=
  match s with
  | EmptyString => [""]
  | String c rest =>
      if (byte_val c =? 10)%Z then "" :: SplitLines rest
      else match SplitLines rest with
           | piece :: more => String c piece :: more
           | [] => [String c ""]
           end
  end.

(** What [strings.ToLower] and [strings.TrimSpace] do on ASCII text; the
    program is stated over arbitrary such functions, these two instantiate
    them on concrete requests. *)
Definition lower_byte (a : Ascii.ascii) : Ascii.ascii :=
  if ((65 <=? byte_val a) && (byte_val a <=? 90))%Z
  then Ascii.ascii_of_N (Ascii.N_of_ascii a + 32)
  else a.

Fixpoint ToLowerASCII (s : string) : string :=
  match s with
  | EmptyString => ""
  | String c rest => String (lower_byte c) (ToLowerASCII rest)
  end.

Definition space_byte (a : Ascii.ascii) : bool :=
  ((9 <=? byte_val a) && (byte_val a <=? 13) || (byte_val a =? 32))%Z.

Fixpoint trim_left (s : string) : string :=
  match s with
  | EmptyString => ""
  | String c rest => if space_byte c then trim_left rest else s
  end.

Fixpoint trim_right (s : string) : string :=
  match s with
  | EmptyString => ""
  | String c rest =>
      match trim_right rest with
      | EmptyString => if space_byte c then "" else String c ""
      | kept => String c kept
      end
  end.

Definition TrimSpaceASCII (s : string) : string := trim_right (trim_left s).

End Strings.

Module Regexp.

(** The class [\w] of Go's regexp syntax: ASCII letters, digits and the
    underscore. *)
Definition word_byte (a : Ascii.ascii) : bool :=
  let b := byte_val a in
  ((48 <=? b) && (b <=? 57) || (65 <=? b) && (b <=? 90)
   || (97 <=? b) && (b <=? 122) || (b =? 95))%Z.

Fixpoint take_word (s : string) : string :=
  match s with
  | EmptyString => ""
  | String c rest => if word_byte c then String c (take_word rest) else ""
  end.

(** [textOnly.FindString(line)] for [textOnly = \w+]: the leftmost
    maximal run of word bytes, or the empty string when there is none. *)
Fixpoint FindString (line : string) : string :=
  match line with
  | EmptyString => ""
  | String c rest =>
      if word_byte c then String c (take_word rest) else FindString rest
  end.

End Regexp.

(** ** Engine discovery: the reordering loop of [getEngines] *)

(** Index at which the loop at the end of [getEngines] first sees
    ["google"], counting from [i]. *)
Fixpoint find_google (i : nat) (engines : list string) : option nat :=
  match engines with
  | [] => None
  | eng :: rest =>
      if decide (eng = "google") then Some i else find_google (S i) rest
  end.

(** [engines[0], engines[i] = engines[i], engines[0]]. *)
Definition swap_with_first (i : nat) (engines : list string) : list string :=
  match engines !! 0, engines !! i with
  | Some e0, Some ei => <[0 := ei]> (<[i := e0]> engines)
  | _, _ => engines
  end.

(** The loop: skip every engine that is not ["google"]; at the first
    ["google"], stop if it is already first, otherwise swap it with the first
    element and stop. *)
Definition move_google_first (engines : list string) : list string :=
  match find_google 0 engines with
  | None => engines
  | Some 0 => engines
  | Some i => swap_with_first i engines
  end.

(** What "the preferred engine moved to the front, every other element in
    its original relative order" denotes for a first occurrence at [i]. *)
Definition promoted_keeping_order (i : nat) (engines : list string)
  : list string :=
  "google" :: take i engines ++ drop (S i) engines.

Module Utf8.

Definition RuneError : rune := 0xFFFD%Z.

Definition bytes (s : string) : list Z := byte_val <$> String.list_ascii_of_string s.

(** Size of the encoding announced by a lead byte, with the range the
    second byte must lie in (the [first] and [acceptRanges] tables of
    unicode/utf8); [None] for a byte that cannot start an encoding. *)
Definition lead (b0 : Z) : option (nat * Z * Z) :=
  if (b0 <? 0xC2)%Z then None
  else if (b0 <=? 0xDF)%Z then Some (2%nat, 0x80%Z, 0xBF%Z)
  else if (b0 =? 0xE0)%Z then Some (3%nat, 0xA0%Z, 0xBF%Z)
  else if (b0 =? 0xED)%Z then Some (3%nat, 0x80%Z, 0x9F%Z)
  else if (b0 <=? 0xEF)%Z then Some (3%nat, 0x80%Z, 0xBF%Z)
  else if (b0 =? 0xF0)%Z then Some (4%nat, 0x90%Z, 0xBF%Z)
  else if (b0 <=? 0xF3)%Z then Some (4%nat, 0x80%Z, 0xBF%Z)
  else if (b0 =? 0xF4)%Z then Some (4%nat, 0x80%Z, 0x8F%Z)
  else None.

Definition between (lo hi b : Z) : bool := ((lo <=? b) && (b <=? hi))%Z.

Definition low6 (b : Z) : Z := Z.land b 0x3F%Z.

(** The first rune of [p] and the number of bytes it takes; an ill-formed
    or truncated encoding gives [RuneError] of width 1. *)
Definition DecodeRune (p : list Z) : rune * nat :=
  match p with
  | [] => (RuneError, 0)
  | b0 :: p1 =>
      if (b0 <? 0x80)%Z then (b0, 1)
      else
        match lead b0, p1 with
        | Some (2, lo, hi), b1 :: _ =>
            if between lo hi b1
            then (Z.lor (Z.shiftl (Z.land b0 0x1F%Z) 6%Z) (low6 b1), 2)
            else (RuneError, 1)
        | Some (3, lo, hi), b1 :: b2 :: _ =>
            if between lo hi b1 && between 0x80%Z 0xBF%Z b2
            then (Z.lor (Z.shiftl (Z.land b0 0x0F%Z) 12%Z)
                    (Z.lor (Z.shiftl (low6 b1) 6%Z) (low6 b2)), 3)
            else (RuneError, 1)
        | Some (4, lo, hi), b1 :: b2 :: b3 :: _ =>
            if between lo hi b1 && between 0x80%Z 0xBF%Z b2 && between 0x80%Z 0xBF%Z b3
            then (Z.lor (Z.shiftl (Z.land b0 0x07%Z) 18%Z)
                    (Z.lor (Z.shiftl (low6 b1) 12%Z)
                       (Z.lor (Z.shiftl (low6 b2) 6%Z) (low6 b3))), 4)
            else (RuneError, 1)
        | _, _ => (RuneError, 1)
        end
  end.

Fixpoint decode_all (fuel : nat) (p : list Z) : list rune :=
  match fuel, p with
  | S fuel', _ :: _ =>
      let '(r, width) := DecodeRune p in r :: decode_all fuel' (drop width p)
  | _, _ => []
  end.

(** The runes a [for _, char := range value] loop visits. *)
Definition runes (value : string) : list rune :=
  decode_all (length (bytes value)) (bytes value).

End Utf8.

Module Unicode.

(** [unicode.IsGraphic] on Latin-1, where Go answers from its [properties]
    table: the control characters (0x00-0x1F, 0x7F-0x9F) and the soft
    hyphen 0xAD are not graphic, everything else is. *)
Definition latin1_graphic (r : rune) : bool :=
  (Utf8.between 0x20 0x7E r || Utf8.between 0xA0 0xFF r && negb (r =? 0xAD))%Z.

(** [unicode.IsGraphic]; [graphic_ranges] stands for membership in
    [unicode.GraphicRanges], which Go consults above Latin-1. *)
Definition IsGraphic (graphic_ranges : rune → bool) (r : rune) : bool :=
  if Utf8.between 0%Z 0xFF%Z r then latin1_graphic r else graphic_ranges r.

End Unicode.

(** ** The Redis hash store behind [*redis.Client] *)

(** The server keeps one hash per language; [online] tells whether the
    client reaches it.  A command sent while offline fails and changes
    nothing. *)
Record Client := mkClient {
  online : bool;
  hashes : gmap string (gmap string string)
}.

(** [*redis.StringCmd]: [Val()] and [Err()]. *)
Record StringCmd := mkStringCmd { Val : string; Err : option error }.

Definition entry (c : Client) (key field : string) : option string :=
  hashes c !! key ≫= λ h, h !! field.

Definition HGet (c : Client) (key field : string) : StringCmd :=
  if online c then
    match entry c key field with
    | Some v => mkStringCmd v None
    | None => mkStringCmd "" (Some "redis: nil")
    end
  else mkStringCmd "" (Some "dial tcp: connection refused").

Definition HSet (c : Client) (key field value : string) : Client :=
  if online c then
    mkClient true (<[key := <[field := value]> (default ∅ (hashes c !! key))]> (hashes c))
  else c.

(** Redis drops a hash when its last field goes. *)
Definition HDel (c : Client) (key field : string) : Client :=
  if online c then
    match hashes c !! key with
    | Some h =>
        let h' := delete field h in
        mkClient true
          (if decide (h' = ∅) then delete key (hashes c) else <[key := h']> (hashes c))
    | None => c
    end
  else c.

(** [client.Keys("*").Val()]. *)
Definition Keys (c : Client) : list string :=
  if online c then (map_to_list (hashes c)).*1 else [].

(** [client.HGetAll(key).Val()]. *)
Definition HGetAll (c : Client) (key : string) : gmap string string :=
  if online c then default ∅ (hashes c !! key) else ∅.

(** ** Effects *)

(** How a message is handed to [notifyChannel]: by a send statement in the
    running goroutine, or by [go func() { notifyChannel <- s }()]. *)
Inductive SendMode := Inline | Spawned.

Inductive Event :=
| EvExec (argv : list string)
| EvHGet (key field : string)
| EvHSet (key field value : string)
| EvHDel (key field : string)
| EvKeys (pattern : string)
| EvHGetAll (key : string)
| EvNotify (mode : SendMode) (msg : string).

(** The process-wide state the functions read and write: the Redis store,
    the package variable [engines], and the effects performed so far. *)
Record World := mkWorld {
  redis : Client;
  engines : list string;
  log : list Event
}.

Definition M (A : Type) : Type := World → A * World.

Definition ret {A} (a : A) : M A := λ w, (a, w).

Definition bind {A B} (m : M A) (k : A → M B) : M B :=
  λ w, let '(a, w') := m w in k a w'.

Notation "x <- c1 ;; c2" := (bind c1 (λ x, c2))
  (at level 100, c1 at next level, right associativity).
Notation "c1 ;; c2" := (bind c1 (λ _, c2))
  (at level 100, right associativity).

Definition emit (e : Event) : M unit :=
  λ w, (tt, mkWorld (redis w) (engines w) (log w ++ [e])).

Definition on_redis {A} (e : Event) (result : Client → A) (next : Client → Client)
  : M A :=
  λ w, (result (redis w), mkWorld (next (redis w)) (engines w) (log w ++ [e])).

Definition client_HGet (key field : string) : M StringCmd :=
  on_redis (EvHGet key field) (λ c, HGet c key field) id.

Definition client_HSet (key field value : string) : M unit :=
  on_redis (EvHSet key field value) (λ _, tt) (λ c, HSet c key field value).

Definition client_HDel (key field : string) : M unit :=
  on_redis (EvHDel key field) (λ _, tt) (λ c, HDel c key field).

Definition client_Keys (pattern : string) : M (list string) :=
  on_redis (EvKeys pattern) Keys id.

Definition client_HGetAll (key : string) : M (gmap string string) :=
  on_redis (EvHGetAll key) (λ c, HGetAll c key) id.

Definition read_engines : M (list string) := λ w, (engines w, w).

Definition write_engines (list : list string) : M unit :=
  λ w, (tt, mkWorld (redis w) list (log w)).

(** A [range] loop over a slice or over a snapshot of a map, threading an
    accumulator. *)
Fixpoint for_range {A B} (body : B → A → M B) (acc : B) (xs : list A) : M B :=
  match xs with
  | [] => ret acc
  | x :: rest => acc' <- body acc x ;; for_range body acc' rest
  end.

(** The result of running an external command to completion. *)
Record Process := mkProcess {
  stdout : string;
  combined : string;
  exit : option error
}.

(** [w] after the further effects [es]. *)
Definition logged (w : World) (es : list Event) : World :=
  mkWorld (redis w) (engines w) (log w ++ es).

Definition notifications (l : list Event) : list (SendMode * string) :=
  omap (λ e, match e with EvNotify mode msg => Some (mode, msg) | _ => None end) l.

Definition executions (l : list Event) : list (list string) :=
  omap (λ e, match e with EvExec argv => Some argv | _ => None end) l.

Definition is_write (e : Event) : bool :=
  match e with EvHSet _ _ _ | EvHDel _ _ => true | _ => false end.

Definition is_redis (e : Event) : bool :=
  match e with EvExec _ | EvNotify _ _ => false | _ => true end.

(** ** Request path and discovery *)

Section Program.

(** [strings.ToLower] and [strings.TrimSpace]. *)
Variable ToLower TrimSpace : string → string.

(** [config.Command], and what running a command yields: the outcome may
    depend on the arguments and on everything that happened before. *)
Variable Command : string.
Variable run : list Event → list string → Process.

(** [exec.Command(argv...)] run to completion. *)
Definition exec_Run (argv : list string) : M Process :=
  λ w, (run (log w) argv, logged w [EvExec argv]).

(** [exec.Command(config.Command, "-e", engine, "-b", ":"+lang, word)]. *)
Definition trans_argv (word lang engine : string) : list string :=
  [Command; "-e"; engine; "-b"; ":" +:+ lang; word].

Definition invokeTrans (word lang engine : string) : M (string * option error) :=
  cmd <- exec_Run (trans_argv word lang engine) ;;
  match exit cmd with
  | Some err => ret ("", Some err)
  | None =>
      let ans := ToLower (TrimSpace (stdout cmd)) in
      if decide (ans = "") then ret ("", Some "empty reply from API")
      else ret (ans, None)
  end.

(** [fmt.Sprint("[error] ", originalWord, " (to ", targetLanguage+") ", err)]
    sent on [notifyChannel] by the calling goroutine itself. *)
Definition onTranslationError (originalWord targetLanguage : string) (err : error)
  : M unit :=
  emit (EvNotify Inline
          ("[error] " +:+ originalWord +:+ " (to " +:+ targetLanguage +:+ ") " +:+ err)).

(** The [for _, engine := range engines] loop of [fetch]; [Some ans] is the
    early [return ans]. *)
Fixpoint fetch_loop (word lang : string) (engs : list string) : M (option string) :=
  match engs with
  | [] => ret None
  | engine :: rest =>
      r <- invokeTrans word lang engine ;;
      match r with
      | (ans, None) => client_HSet lang word ans ;; ret (Some ans)
      | (_, Some _) => fetch_loop word lang rest
      end
  end.

Definition fetch (word lang : string) : M string :=
  engs <- read_engines ;;
  r <- fetch_loop word lang engs ;;
  match r with
  | Some ans => ret ans
  | None =>
      onTranslationError word lang "failed to translate in all engines" ;;
      ret word
  end.

(** What [invokeTrans] returns for [engine] when [fetch], started in [w],
    calls it after the first [j] engines of the list have been tried. *)
Definition attempt_at (word lang : string) (w : World) (j : nat) (engine : string)
  : string * option error :=
  (invokeTrans word lang engine
     (logged w (EvExec ∘ trans_argv word lang <$> take j (engines w)))).1.

(** The text [onTranslationError] sends when every engine failed. *)
Definition all_failed_text (word lang : string) : string :=
  "[error] " +:+ word +:+ " (to " +:+ lang +:+ ") failed to translate in all engines".

Definition StatusOK : Z := 200.

(** The handler of [GET /translate/:word/to/:lang], from the two path
    parameters to the status and body it writes. *)
Definition translate_handler (word_param lang_param : string) : M (Z * string) :=
  let word := ToLower (TrimSpace word_param) in
  let lang := ToLower (TrimSpace lang_param) in
  if decide (word = "") then ret (StatusOK, "")
  else if decide (lang = "") then ret (StatusOK, "")
  else
    cached <- client_HGet lang word ;;
    match Err cached with
    | Some _ => ans <- fetch word lang ;; ret (StatusOK, ans)
    | None => ret (StatusOK, Val cached)
    end.

Definition infoNotification (message : string) : M unit :=
  emit (EvNotify Spawned ("[info] " +:+ message)).

Definition errorNotification (message : string) : M unit :=
  emit (EvNotify Spawned ("[error] " +:+ message)).

(** The parsing loop of [getEngines]: the first word of every line that
    has one. *)
Definition parse_engines (data : string) : list string :=
  foldl (λ (engines : list string) line,
           let l := Regexp.FindString line in
           if decide (l = "") then engines else (engines ++ [l])%list)
        [] (Strings.SplitLines data).

Definition getEngines : M (list string * option error) :=
  cmd <- exec_Run [Command; "-S"] ;;
  match exit cmd with
  | Some err => ret ([], Some err)
  | None => ret (move_google_first (parse_engines (combined cmd)), None)
  end.

(** The discovery goroutine started by [main]. *)
Definition discover : M unit :=
  r <- getEngines ;;
  match r with
  | (_, Some err) => errorNotification ("failed get engines list: " +:+ err)
  | (list, None) =>
      infoNotification ("supported engines: " +:+ Strings.Join list ", ") ;;
      write_engines list
  end.

End Program.

(** A [trans] installation for concrete runs: the engine ["google"] exits
    with an error, ["bing"] answers [" Katze "], any other engine prints
    nothing; [-S] lists three engines. *)
Definition demo_run (history : list Event) (argv : list string) : Process :=
  match argv with
  | [_; "-S"] =>
      let listing := "  aspell" +:+ newline +:+ "  bing" +:+ newline +:+ "* google" +:+ newline in
      mkProcess listing listing None
  | [_; "-e"; "google"; _; _; _] => mkProcess "" "timeout" (Some "exit status 1")
  | [_; "-e"; "bing"; _; _; _] => mkProcess (" Katze " +:+ newline) (" Katze " +:+ newline) None
  | _ => mkProcess "" "" None
  end.

(** A [trans] that fails the first time it is run and answers [Katze]
    from then on. *)
Definition flaky_run (history : list Event) (argv : list string) : Process :=
  match executions history with
  | [] => mkProcess "" "connection reset" (Some "exit status 1")
  | _ => mkProcess "Katze" "Katze" None
  end.

(** A [trans] whose [-S] listing has no word on any line. *)
Definition blank_run (history : list Event) (argv : list string) : Process :=
  mkProcess "" (" --- " +:+ newline +:+ newline +:+ " * ") None.

Definition demo_world : World :=
  mkWorld (mkClient true {[ "de" := {[ "dog" := "hund" ]} ]})
          ["google"; "bing"; "yandex"] [].

(** ** The cache janitor *)

(** [removed++; stats[lang] = stats[lang] + 1]. *)
Definition tally (lang : string) (acc : nat * gmap string nat)
  : nat * gmap string nat :=
  (S acc.1, <[lang := default 0 (acc.2 !! lang) + 1]> acc.2).

(** [fmt.Sprint(lang, ": ", count, " removes")]. *)
Definition stat_line (entry : string * nat) : string :=
  entry.1 +:+ ": " +:+ pretty entry.2 +:+ " removes".

(** The text both sweeps send: the headline, then one line per language
    of [stats], joined by newlines.  Go ranges over [stats] in an
    unspecified order; the lines come here in the order of [map_to_list],
    and the properties below hold for any order. *)
Definition summary (headline : string) (stats : gmap string nat) : string :=
  Strings.Join (headline :: (stat_line <$> map_to_list stats)) newline.

Definition report (headline : nat → string) (acc : nat * gmap string nat) : M unit :=
  if (0 <? acc.1)%nat
  then emit (EvNotify Spawned (summary (headline acc.1) acc.2))
  else ret tt.

Definition empty_headline (removed : nat) : string :=
  "[info] removed " +:+ pretty removed +:+ " trashed (empty) translations".

Definition nonprintable_headline (removed : nat) : string :=
  "[info] removed " +:+ pretty removed +:+ " non-printable translations".

Definition removeEmptyTranslations : M unit :=
  keys <- client_Keys "*" ;;
  acc <- for_range (λ acc lang,
           h <- client_HGetAll lang ;;
           for_range (λ acc (kv : string * string),
                        if decide (kv.2 = "")
                        then client_HDel lang kv.1 ;; ret (tally lang acc)
                        else ret acc)
                     acc (map_to_list h))
         (0, ∅) keys ;;
  report empty_headline acc.

Section NonPrintable.

(** Membership in [unicode.GraphicRanges] above Latin-1. *)
Variable graphic_ranges : rune → bool.

(** [for _, char := range value { if !unicode.IsGraphic(char) { ...; break } }]. *)
Fixpoint scan_value (lang word : string) (chars : list rune)
    (acc : nat * gmap string nat) : M (nat * gmap string nat) :=
  match chars with
  | [] => ret acc
  | char :: rest =>
      if negb (Unicode.IsGraphic graphic_ranges char)
      then client_HDel lang word ;; ret (tally lang acc)
      else scan_value lang word rest acc
  end.

Definition removeNonPrintableTranslations : M unit :=
  keys <- client_Keys "*" ;;
  acc <- for_range (λ acc lang,
           h <- client_HGetAll lang ;;
           for_range (λ acc (kv : string * string),
                        scan_value lang kv.1 (Utf8.runes kv.2) acc)
                     acc (map_to_list h))
         (0, ∅) keys ;;
  report nonprintable_headline acc.

Definition cleanup : M unit :=
  removeEmptyTranslations ;; removeNonPrintableTranslations.

(** A value the second sweep removes: one of its runes is not graphic. *)
Definition non_printable (value : string) : bool :=
  existsb (λ char, negb (Unicode.IsGraphic graphic_ranges char)) (Utf8.runes value).

End NonPrintable.

Definition is_empty (value : string) : bool := bool_decide (value = "").

(** *** The shape the two sweeps share

    Both sweeps walk every hash of every key and delete the fields whose
    value satisfies a test [P]; the definitions below are that walk with
    the test as a parameter, for the proofs. *)

Definition sweep_entry (P : string → bool) (lang : string)
    (acc : nat * gmap string nat) (kv : string * string) : M (nat * gmap string nat) :=
  if P kv.2 then client_HDel lang kv.1 ;; ret (tally lang acc) else ret acc.

Definition sweep_lang (P : string → bool) (acc : nat * gmap string nat) (lang : string)
  : M (nat * gmap string nat) :=
  h <- client_HGetAll lang ;; for_range (sweep_entry P lang) acc (map_to_list h).

Definition sweep (P : string → bool) (headline : nat → string) : M unit :=
  keys <- client_Keys "*" ;;
  acc <- for_range (sweep_lang P) (0, ∅) keys ;;
  report headline acc.

(** The state after [HDel lang f] was issued for each [f] of [fields]. *)
Definition del_all (lang : string) (fields : list string) (w : World) : World :=
  foldl (λ w f, mkWorld (HDel (redis w) lang f) (engines w) (log w ++ [EvHDel lang f]))
        w fields.

(** [stats] after [n] removals were tallied for [lang]. *)
Definition bump (lang : string) (n : nat) (stats : gmap string nat) : gmap string nat :=
  match n with
  | 0 => stats
  | S _ => <[lang := default 0 (stats !! lang) + n]> stats
  end.

(** The fields of [kvs] whose value satisfies [P]. *)
Definition doomed_fields (P : string → bool) (kvs : list (string * string)) : list string :=
  (filter (λ kv : string * string, P kv.2 = true) kvs).*1.

(** [w'] continues [w] with Redis commands only. *)
Definition redis_only (w w' : World) : Prop :=
  engines w' = engines w
  ∧ online (redis w') = online (redis w)
  ∧ ∃ es, log w' = log w ++ es ∧ Forall (λ e, is_redis e = true) es.

(** What a sweep with test [P] leaves of a cache entry. *)
Definition surviving (P : string → bool) (cached : option string) : option string :=
  match cached with
  | Some v => if P v then None else Some v
  | None => None
  end.

(** Number of fields under [lang] whose value satisfies [P]. *)
Definition doomed (P : string → bool) (c : Client) (lang : string) : nat :=
  length (filter (λ kv : string * string, P kv.2 = true) (map_to_list (HGetAll c lang))).

(** What a sweep must report for the cache [c]: nothing when no field
    satisfies [P]; otherwise one message sent from a fresh goroutine whose
    first line is the headline with the total and whose other lines give,
    in some order, the count of every language that lost a field. *)
Definition reports (P : string → bool) (headline : nat → string) (c : Client)
    (notes : list (SendMode * string)) : Prop :=
  let total := sum_list (doomed P c <$> Keys c) in
  if (total =? 0)%nat then notes = []
  else ∃ lines,
      notes = [(Spawned, Strings.Join (headline total :: lines) newline)]
      ∧ lines ≡ₚ stat_line <$> filter (λ p : string * nat, 0 < p.2)
                                  ((λ lang, (lang, doomed P c lang)) <$> Keys c).

(** The cache of the specification's janitor scenario. *)
Definition scenario_cache : Client :=
  mkClient true
    {[ "en" := {[ "a" := ""; "b" := "ok";
                  "c" := String (Ascii.ascii_of_nat 1) "bad" ]} ]}.

Definition scenario_world : World := mkWorld scenario_cache ["google"] [].

(** ** The notification loop *)

(** [*tgbotapi.BotAPI]; the loop only tests it against nil. *)
Inductive BotAPI := TelegramBot.

(** The variables of [notificationLoop]. *)
Record Notifier := mkNotifier {
  bot : option BotAPI;
  batch : list string
}.

(** [case msg := <-notifyChannel]. *)
Definition on_message (msg : string) (st : Notifier) : Notifier :=
  mkNotifier (bot st) (batch st ++ [msg]).

(** [case <-ticker.C]; [send] is what [bot.Send] answers during this
    tick.  The second component lists the texts handed to [bot.Send]. *)
Definition on_tick (send : string → option error) (st : Notifier)
  : Notifier * list string :=
  if (length (batch st) =? 0)%nat then (st, [])
  else
    let msg := Strings.Join (batch st) newline in
    match bot st with
    | None => (mkNotifier (bot st) [], [])
    | Some _ =>
        match send msg with
        | Some _ => (st, [msg])
        | None => (mkNotifier (bot st) [], [msg])
        end
    end.

Definition receive_all (msgs : list string) (st : Notifier) : Notifier :=
  foldl (λ st msg, on_message msg st) st msgs.

(** What wakes the [select]: a message on [notifyChannel], or the ticker,
    together with the answer [bot.Send] would give at that moment. *)
Inductive Stimulus :=
| Received (msg : string)
| Ticked (send : string → option error).

(** The loop over a finite run of stimuli, from the empty batch; [bot] is
    what [tgbotapi.NewBotAPI] gave.  Returns the final variables and the
    texts handed to [bot.Send], in order. *)
Definition notificationLoop (bot : option BotAPI) (inputs : list Stimulus)
  : Notifier * list string :=
  foldl (λ (acc : Notifier * list string) s,
           match s with
           | Received msg => (on_message msg acc.1, acc.2)
           | Ticked send => ((on_tick send acc.1).1, acc.2 ++ (on_tick send acc.1).2)
           end)
        (mkNotifier bot [], []) inputs.

(** ** Goroutines around [notifyChannel] *)

(** Where the goroutine running [notificationLoop] stands: still inside
    [tgbotapi.NewBotAPI], parked in its [select], or inside [bot.Send]. *)
Inductive LoopPoint := Initializing | Selecting | Delivering.

(** [notifyChannel = make(chan string)]: no buffer. *)
Definition notifyChannel_capacity : nat := 0.

Record System := mkSystem {
  point : LoopPoint;
  notifier : Notifier;
  queued : list string;      (* the channel's buffer *)
  parked : list string       (* goroutines blocked in [notifyChannel <- s] *)
}.

Definition receiver_ready (sys : System) : bool :=
  match point sys with Selecting => true | _ => false end.

(** A send statement executed now: it completes by handing the value to
    the receiver waiting in [select], or by taking a free buffer slot;
    with neither it cannot complete ([None]). *)
Definition chan_send (msg : string) (sys : System) : option System :=
  if receiver_ready sys
  then Some (mkSystem (point sys) (on_message msg (notifier sys)) (queued sys) (parked sys))
  else if (length (queued sys) <? notifyChannel_capacity)%nat
  then Some (mkSystem (point sys) (notifier sys) (queued sys ++ [msg]) (parked sys))
  else None.

(** One notification step of a producer goroutine.  A [go] statement
    always completes: the new goroutine carries the send. *)
Definition producer_step (mode : SendMode) (msg : string) (sys : System)
  : option System :=
  match mode with
  | Spawned => Some (mkSystem (point sys) (notifier sys) (queued sys) (parked sys ++ [msg]))
  | Inline => chan_send msg sys
  end.

(** The events a computation adds to the log when started in [w]. *)
Definition emitted {A} (m : M A) (w : World) : list Event :=
  drop (length (log w)) (log (m w).2).

(** Every notification [m] emits goes through without waiting, whatever
    the loop is doing. *)
Definition never_waits {A} (m : M A) : Prop :=
  ∀ w sys mode msg,
    (mode, msg) ∈ notifications (emitted m w) → is_Some (producer_step mode msg sys).

(** ** Further notions for the properties *)

(** A host where the command cannot be started. *)
Definition broken_run (history : list Event) (argv : list string) : Process :=
  mkProcess "" "" (Some "fork/exec /usr/bin/trans: no such file or directory").

(** The messages a run of stimuli delivers on [notifyChannel], in order. *)
Definition received (inputs : list Stimulus) : list string :=
  omap (λ s, match s with Received msg => Some msg | Ticked _ => None end) inputs.

(** A string made of [\w] bytes only. *)
Definition word_only (s : string) : bool :=
  forallb Regexp.word_byte (String.list_ascii_of_string s).

(** A run of stimuli in which every [bot.Send] fails, and one in which
    every [bot.Send] succeeds. *)
Definition sends_fail (inputs : list Stimulus) : Prop :=
  Forall (λ s, match s with
               | Received _ => True
               | Ticked send => ∀ text, send text ≠ None
               end) inputs.


(** What the tick at position [k] of [inputs] hands to [bot.Send] while no
    send has succeeded yet: everything received before that tick, when
    that is anything at all.  [None] at a position that is not a tick, or
    a tick that finds nothing received. *)
Definition backlog_at (inputs : list Stimulus) (k : nat) : option string :=
  match inputs !! k with
  | Some (Ticked _) =>
      match received (take k inputs) with
      | [] => None
      | msgs => Some (Strings.Join msgs newline)
      end
  | _ => None
  end.

(** A value one of the two sweeps removes. *)
Definition invalid (graphic_ranges : rune → bool) (value : string) : bool :=
  is_empty value || non_printable graphic_ranges value.

(** A cache none of whose values is the empty string. *)
Definition no_empty_values (c : Client) : Prop :=
  ∀ key field value, entry c key field = Some value → value ≠ "".

(** A value of ASCII bytes only, and the ASCII control bytes. *)
Definition ascii_only (value : string) : bool :=
  forallb (λ b, (b <? 0x80)%Z) (Utf8.bytes value).

Definition control_byte (b : Z) : bool := ((b <? 0x20) || (b =? 0x7F))%Z.
(** * Properties *)

(** ** The embedding on small inputs *)

Example move_google_first_ex :
  move_google_first ["bing"; "google"; "yandex"] = ["google"; "bing"; "yandex"].
Proof. reflexivity. Qed.

Example runes_ascii : Utf8.runes "ok" = [111; 107]%Z.
Proof. reflexivity. Qed.

Example runes_two_byte :
  Utf8.runes (String (Ascii.ascii_of_nat 195) (String (Ascii.ascii_of_nat 169) ""))
  = [233]%Z.
Proof. reflexivity. Qed.

Example runes_stray_continuation :
  Utf8.runes (String (Ascii.ascii_of_nat 169) "a") = [Utf8.RuneError; 97]%Z.
Proof. reflexivity. Qed.

Example parse_engines_ex :
  parse_engines ("  aspell" +:+ newline +:+ "* google" +:+ newline +:+ "  bing" +:+ newline)
  = ["aspell"; "google"; "bing"].
Proof. reflexivity. Qed.

Example split_lines_ex :
  Strings.SplitLines ("a" +:+ newline +:+ newline +:+ "b") = ["a"; ""; "b"]
  ∧ Strings.SplitLines "" = [""].
Proof. split; reflexivity. Qed.

Example find_string_ex :
  Regexp.FindString "* google-translate" = "google" ∧ Regexp.FindString " -- " = "".
Proof. split; reflexivity. Qed.

Example normalize_ascii_ex :
  Strings.ToLowerASCII (Strings.TrimSpaceASCII "  Guten Tag ") = "guten tag".
Proof. reflexivity. Qed.

Example graphic_ex :
  Unicode.IsGraphic (λ _, true) 1%Z = false
  ∧ Unicode.IsGraphic (λ _, true) 32%Z = true
  ∧ Unicode.IsGraphic (λ _, true) 0xAD%Z = false.
Proof. repeat split. Qed.

Example discover_demo :
  engines (discover "/usr/bin/trans" demo_run demo_world).2 = ["google"; "bing"; "aspell"]
  ∧ notifications (log (discover "/usr/bin/trans" demo_run demo_world).2)
    = [(Spawned, "[info] supported engines: google, bing, aspell")].
Proof. split; reflexivity. Qed.

Example fetch_demo :
  fetch Strings.ToLowerASCII Strings.TrimSpaceASCII "/usr/bin/trans" demo_run
        "cat" "de" demo_world
  = ("katze",
     mkWorld (HSet (redis demo_world) "de" "cat" "katze") ["google"; "bing"; "yandex"]
       [EvExec ["/usr/bin/trans"; "-e"; "google"; "-b"; ":de"; "cat"];
        EvExec ["/usr/bin/trans"; "-e"; "bing"; "-b"; ":de"; "cat"];
        EvHSet "de" "cat" "katze"]).
Proof. reflexivity. Qed.

Example fetch_retries_same_engine :
  fetch Strings.ToLowerASCII Strings.TrimSpaceASCII "/usr/bin/trans" flaky_run
        "cat" "de" (mkWorld (mkClient true ∅) ["bing"; "bing"] [])
  = ("katze",
     mkWorld (mkClient true {[ "de" := {[ "cat" := "katze" ]} ]}) ["bing"; "bing"]
       [EvExec ["/usr/bin/trans"; "-e"; "bing"; "-b"; ":de"; "cat"];
        EvExec ["/usr/bin/trans"; "-e"; "bing"; "-b"; ":de"; "cat"];
        EvHSet "de" "cat" "katze"]).
Proof. vm_compute. reflexivity. Qed.

Example loop_coalesces :
  notificationLoop (Some TelegramBot)
    [Received "e1"; Received "e2"; Received "e3"; Ticked (λ _, None); Ticked (λ _, None)]
  = (mkNotifier (Some TelegramBot) [],
     ["e1" +:+ newline +:+ "e2" +:+ newline +:+ "e3"]).
Proof. reflexivity. Qed.

Example loop_retries :
  (notificationLoop (Some TelegramBot)
     [Received "e1"; Ticked (λ _, Some "Bad Gateway"); Received "e2"; Ticked (λ _, None)]).2
  = ["e1"; "e1" +:+ newline +:+ "e2"].
Proof. reflexivity. Qed.

Example tick_without_bot :
  on_tick (λ _, None) (mkNotifier None ["a"; "b"]) = (mkNotifier None [], []).
Proof. reflexivity. Qed.

(** The fuel of [Utf8.runes] never runs out: every step consumes at least
    one byte. *)
Lemma DecodeRune_width (p : list Z) :
  p ≠ [] → (1 ≤ (Utf8.DecodeRune p).2)%nat.
Proof.
  intros Hp. unfold Utf8.DecodeRune. destruct p as [|b0 p]; [done|].
  repeat case_match; simpl; lia.
Qed.

Lemma decode_all_fuel (n m : nat) (p : list Z) :
  (length p ≤ n)%nat → (length p ≤ m)%nat →
  Utf8.decode_all n p = Utf8.decode_all m p.
Proof.
  revert m p. induction n as [|n IH]; intros m p Hn Hm.
  - destruct p; [|simpl in Hn; lia]. by destruct m.
  - destruct p as [|b p]; [by destruct m|].
    destruct m as [|m]; [simpl in Hm; lia|].
    pose proof (DecodeRune_width (b :: p) ltac:(done)) as Hw.
    cbn [Utf8.decode_all].
    destruct (Utf8.DecodeRune (b :: p)) as [r width]. simpl in Hw.
    f_equal. apply IH; rewrite length_drop; simpl in *; lia.
Qed.

(** ** Engine reordering *)

Lemma find_google_None (engines : list string) (k : nat) :
  "google" ∉ engines → find_google k engines = None.
Proof.
  revert k. induction engines as [|eng rest IH]; intros k Hnot; [done|].
  simpl. apply not_elem_of_cons in Hnot as [Hne Hrest].
  destruct (decide (eng = "google")); [congruence|]. by apply IH.
Qed.

Lemma find_google_first (engines : list string) (k i : nat) :
  engines !! i = Some "google" →
  (∀ j, j < i → engines !! j ≠ Some "google") →
  find_google k engines = Some (k + i).
Proof.
  revert k i. induction engines as [|eng rest IH]; intros k i Hi Hbefore; [done|].
  simpl. destruct i as [|i].
  - simpl in Hi. injection Hi as ->. rewrite decide_True by done. f_equal. lia.
  - destruct (decide (eng = "google")) as [->|Hne].
    + exfalso. apply (Hbefore 0); [lia|done].
    + replace (k + S i) with (S k + i) by lia. apply IH; [done|].
      intros j Hj. apply (Hbefore (S j)). lia.
Qed.

(** C1 (as amended): the reordering loop exchanges the first occurrence of
    ["google"] with the element at index 0.  When ["google"] is absent, or
    already first, the list is returned as it is; when its first occurrence
    is at an index [i > 0], the result has ["google"] at index 0, the former
    first element at index [i], and every other position as before. *)
Theorem move_google_first_spec (engines : list string) :
  ("google" ∉ engines → move_google_first engines = engines) ∧
  (engines !! 0 = Some "google" → move_google_first engines = engines) ∧
  (∀ i first,
      0 < i →
      engines !! i = Some "google" →
      (∀ j, j < i → engines !! j ≠ Some "google") →
      engines !! 0 = Some first →
      move_google_first engines = <[0 := "google"]> (<[i := first]> engines)
      ∧ move_google_first engines !! 0 = Some "google"
      ∧ move_google_first engines !! i = Some first
      ∧ (∀ j, j ≠ 0 → j ≠ i → move_google_first engines !! j = engines !! j)
      ∧ length (move_google_first engines) = length engines).
Proof.
  unfold move_google_first. split; [|split].
  - intros Hnot. by rewrite (find_google_None _ 0 Hnot).
  - intros H0. rewrite (find_google_first engines 0 0 H0); [done|]. intros j Hj; lia.
  - intros i first Hpos Hi Hbefore H0.
    rewrite (find_google_first engines 0 i Hi Hbefore). simpl.
    destruct i as [|i]; [lia|].
    unfold swap_with_first. rewrite H0, Hi.
    assert (S i < length engines) as Hlen by (by eapply lookup_lt_Some).
    split; [done|]. split; [|split; [|split]].
    + apply list_lookup_insert_eq. rewrite length_insert. lia.
    + rewrite list_lookup_insert_ne by lia. by apply list_lookup_insert_eq.
    + intros j Hj0 Hji. by rewrite !list_lookup_insert_ne by lia.
    + by rewrite !length_insert.
Qed.

(** C1 (as stated) fails: with ["google"] first found at index 2, the swap
    sends the former first element behind the second one, so the remaining
    engines are not in their original relative order. *)
Lemma move_google_first_reorders_others :
  find_google 0 ["bing"; "yandex"; "google"] = Some 2
  ∧ move_google_first ["bing"; "yandex"; "google"] = ["google"; "yandex"; "bing"]
  ∧ move_google_first ["bing"; "yandex"; "google"]
    ≠ promoted_keeping_order 2 ["bing"; "yandex"; "google"]
  ∧ filter (λ e, e ≠ "google") (move_google_first ["bing"; "yandex"; "google"])
    ≠ filter (λ e, e ≠ "google") ["bing"; "yandex"; "google"].
Proof. repeat split; try reflexivity; vm_compute; discriminate. Qed.

(** ** Fallback over the engines *)

Section Resolve.

Variable ToLower TrimSpace : string → string.
Variable Command : string.
Variable run : list Event → list string → Process.

Local Abbreviation invokeTrans := (invokeTrans ToLower TrimSpace Command run).
Local Abbreviation attempt_at := (attempt_at ToLower TrimSpace Command run).
Local Abbreviation fetch_loop := (fetch_loop ToLower TrimSpace Command run).
Local Abbreviation fetch := (fetch ToLower TrimSpace Command run).
Local Abbreviation translate_handler := (translate_handler ToLower TrimSpace Command run).
Local Abbreviation argv_of word lang := (EvExec ∘ trans_argv Command word lang).

Lemma invokeTrans_run word lang engine (w : World) :
  invokeTrans word lang engine w
  = ((invokeTrans word lang engine w).1,
     logged w [EvExec (trans_argv Command word lang engine)]).
Proof.
  unfold invokeTrans, bind, exec_Run, ret.
  destruct (exit _); [done|]. by destruct (decide _).
Qed.

Lemma logged_logged (w : World) (es es' : list Event) :
  logged (logged w es) es' = logged w (es ++ es').
Proof. unfold logged. simpl. by rewrite <- app_assoc. Qed.

Lemma logged_nil (w : World) : logged w [] = w.
Proof. destruct w. unfold logged. simpl. by rewrite app_nil_r. Qed.

(** A prefix of engines each of which fails when its turn comes is tried
    in order and leaves only its executions behind. *)
Lemma fetch_loop_skips word lang (failed rest : list string) (w : World) :
  (∀ j e, failed !! j = Some e →
     (invokeTrans word lang e (logged w (argv_of word lang <$> take j failed))).1.2
     ≠ None) →
  fetch_loop word lang (failed ++ rest) w
  = fetch_loop word lang rest (logged w (argv_of word lang <$> failed)).
Proof.
  revert w. induction failed as [|e failed IH]; intros w Hfail.
  - simpl. by rewrite logged_nil.
  - simpl. unfold bind at 1. rewrite invokeTrans_run.
    pose proof (Hfail 0 e eq_refl) as He. simpl in He. rewrite logged_nil in He.
    destruct (invokeTrans word lang e w).1 as [ans [err|]] eqn:Hres; [|done].
    rewrite IH.
    + by rewrite logged_logged.
    + intros j e' He'. specialize (Hfail (S j) e' He'). simpl in Hfail.
      by rewrite logged_logged.
Qed.

Lemma fetch_loop_hit word lang engine (rest : list string) ans (w : World) :
  (invokeTrans word lang engine w).1 = (ans, None) →
  fetch_loop word lang (engine :: rest) w
  = (Some ans,
     mkWorld (HSet (redis w) lang word ans) (engines w)
       (log w ++ [EvExec (trans_argv Command word lang engine); EvHSet lang word ans])).
Proof.
  intros Hres. simpl. unfold bind at 1. rewrite invokeTrans_run, Hres.
  unfold bind, client_HSet, on_redis, ret, logged. simpl.
  by rewrite <- app_assoc.
Qed.

(** C3: when each engine before position [k] fails at its turn and the
    engine at position [k] answers [ans] (positions counted from 0, so
    [S k] engines are involved), [fetch] runs exactly the first [S k]
    engines, in list order, issues a single [HSet lang word ans] after them,
    and returns [ans]; when Redis is reachable the cache then holds [ans]
    under [(lang, word)]. *)
Theorem fetch_falls_back word lang (w : World) (k : nat) engine ans :
  engines w !! k = Some engine →
  (∀ j e, j < k → engines w !! j = Some e → (attempt_at word lang w j e).2 ≠ None) →
  attempt_at word lang w k engine = (ans, None) →
  fetch word lang w
  = (ans,
     mkWorld (HSet (redis w) lang word ans) (engines w)
       (log w ++ (argv_of word lang <$> take (S k) (engines w))
              ++ [EvHSet lang word ans]))
  ∧ (online (redis w) = true →
     entry (HSet (redis w) lang word ans) lang word = Some ans).
Proof.
  intros Hk Hfail Hans. split.
  - unfold fetch, bind at 1, read_engines.
    pose proof (take_drop_middle _ _ _ Hk) as Hsplit.
    unfold bind at 1. rewrite <- Hsplit at 1.
    rewrite fetch_loop_skips.
    + rewrite (fetch_loop_hit _ _ _ _ ans) by exact Hans.
      unfold ret, logged. simpl. f_equal. f_equal.
      rewrite (take_S_r _ _ _ Hk), fmap_app. simpl.
      by rewrite <- !app_assoc.
    + intros j e Hj.
      pose proof (lookup_lt_Some _ _ _ Hj) as Hlt. rewrite length_take in Hlt.
      rewrite lookup_take_lt in Hj by lia.
      rewrite take_take, Nat.min_l by lia.
      apply (Hfail j e); [lia|done].
  - intros Hon. unfold entry, HSet. rewrite Hon. simpl.
    rewrite lookup_insert_eq. simpl. by rewrite lookup_insert_eq.
Qed.

(** C5: when every engine of the current list fails at its turn, [fetch]
    has run each of them once, in order, has written nothing to the cache,
    has sent one notification, [[error] <word> (to <lang>) failed to
    translate in all engines], and returns [word] itself, which is not empty
    when [word] is not. *)
Theorem fetch_all_engines_fail word lang (w : World) :
  word ≠ "" →
  lang ≠ "" →
  (∀ j e, engines w !! j = Some e → (attempt_at word lang w j e).2 ≠ None) →
  fetch word lang w
  = (word, logged w ((argv_of word lang <$> engines w)
                     ++ [EvNotify Inline (all_failed_text word lang)]))
  ∧ (fetch word lang w).1 ≠ ""
  ∧ redis (fetch word lang w).2 = redis w
  ∧ notifications (emitted (fetch word lang) w)
    = [(Inline, all_failed_text word lang)].
Proof.
  intros Hword Hlang Hfail.
  assert (fetch word lang w
          = (word, logged w ((argv_of word lang <$> engines w)
                             ++ [EvNotify Inline (all_failed_text word lang)]))) as Hrun.
  { unfold fetch, bind at 1, read_engines. unfold bind at 1.
    rewrite <- (app_nil_r (engines w)) at 1.
    rewrite fetch_loop_skips by exact Hfail. simpl.
    unfold ret at 1. unfold bind, onTranslationError, emit, ret, logged. simpl.
    by rewrite <- app_assoc. }
  split; [done|]. rewrite Hrun. simpl. split; [done|]. split; [done|].
  unfold emitted. rewrite Hrun. simpl. rewrite drop_app_length.
  unfold notifications. rewrite omap_app. simpl.
  replace (omap _ (argv_of word lang <$> engines w)) with (@nil (SendMode * string)); [done|].
  symmetry. generalize (engines w). intros l. by induction l.
Qed.

(** ** The request handler *)

(** C7: a request whose word or language is empty after trimming and
    lower-casing is answered with status 200 and an empty body, and the
    state is untouched: no Redis command, no engine run, no notification. *)
Theorem handler_rejects_empty word_param lang_param (w : World) :
  ToLower (TrimSpace word_param) = "" ∨ ToLower (TrimSpace lang_param) = "" →
  translate_handler word_param lang_param w = ((StatusOK, ""), w)
  ∧ emitted (translate_handler word_param lang_param) w = [].
Proof.
  intros Hempty.
  assert (translate_handler word_param lang_param w = ((StatusOK, ""), w)) as Hrun.
  { unfold translate_handler.
    destruct (decide (ToLower (TrimSpace word_param) = "")); [done|].
    destruct (decide (ToLower (TrimSpace lang_param) = "")); [done|].
    by destruct Hempty. }
  split; [done|]. unfold emitted. rewrite Hrun. simpl. apply drop_all.
Qed.

Lemma translate_handler_run word_param lang_param (w : World) :
  let word := ToLower (TrimSpace word_param) in
  let lang := ToLower (TrimSpace lang_param) in
  word ≠ "" →
  lang ≠ "" →
  translate_handler word_param lang_param w
  = match Err (HGet (redis w) lang word) with
    | Some _ => ((StatusOK, (fetch word lang (logged w [EvHGet lang word])).1),
                 (fetch word lang (logged w [EvHGet lang word])).2)
    | None => ((StatusOK, Val (HGet (redis w) lang word)), logged w [EvHGet lang word])
    end.
Proof.
  intros word lang Hword Hlang.
  unfold translate_handler. fold word lang. rewrite !decide_False by done.
  unfold bind at 1. unfold client_HGet, on_redis. fold (logged w [EvHGet lang word]).
  destruct (Err (HGet (redis w) lang word)); [|done].
  unfold bind, ret. by destruct (fetch word lang _).
Qed.

(** C4: for a non-empty normalized word and language the handler issues one
    [HGet lang word].  If that returns [v] without error, the body is [v]
    and nothing else happens: no engine is run, nothing is written.  If it
    returns an error, the answer is whatever [fetch] produces; both an
    absent entry and an unreachable server are such errors. *)
Theorem handler_reads_through word_param lang_param (w : World) :
  let word := ToLower (TrimSpace word_param) in
  let lang := ToLower (TrimSpace lang_param) in
  word ≠ "" →
  lang ≠ "" →
  (Err (HGet (redis w) lang word) = None →
   translate_handler word_param lang_param w
   = ((StatusOK, Val (HGet (redis w) lang word)), logged w [EvHGet lang word])
   ∧ executions (emitted (translate_handler word_param lang_param) w) = []
   ∧ filter is_write (emitted (translate_handler word_param lang_param) w) = [])
  ∧ (Err (HGet (redis w) lang word) ≠ None →
     translate_handler word_param lang_param w
     = ((StatusOK, (fetch word lang (logged w [EvHGet lang word])).1),
        (fetch word lang (logged w [EvHGet lang word])).2))
  ∧ (∀ v, online (redis w) = true → entry (redis w) lang word = Some v →
     HGet (redis w) lang word = mkStringCmd v None)
  ∧ (entry (redis w) lang word = None ∨ online (redis w) = false →
     Err (HGet (redis w) lang word) ≠ None).
Proof.
  intros word lang Hword Hlang.
  pose proof (translate_handler_run word_param lang_param w Hword Hlang) as Hrun.
  fold word lang in Hrun.
  split; [|split; [|split]].
  - intros Hok. rewrite Hok in Hrun. split; [done|].
    unfold emitted. rewrite Hrun. simpl. by rewrite drop_app_length.
  - intros Herr. by destruct (Err (HGet (redis w) lang word)).
  - intros v Hon Hv. unfold HGet. by rewrite Hon, Hv.
  - intros Hmiss. unfold HGet. destruct (online (redis w)); [|done].
    destruct Hmiss as [->|?]; done.
Qed.

(** ** Discovery *)

Lemma parse_engines_blank (data : string) :
  Forall (λ line, Regexp.FindString line = "") (Strings.SplitLines data) →
  parse_engines data = [].
Proof.
  unfold parse_engines. generalize (Strings.SplitLines data). intros lines Hblank.
  induction Hblank as [|line lines Hline _ IH]; [done|].
  simpl. by rewrite decide_True.
Qed.

(** C10: when the [-S] run exits cleanly but no line of its output holds a
    word, [getEngines] returns the empty list with a nil error and the
    discovery goroutine stores it in [engines].  With [engines] empty,
    [fetch] runs no process and returns its [word] argument (after sending
    its failure notification), so the handler answers every cache miss with
    the normalized word. *)
Theorem discovery_without_engines (w : World) :
  exit (run (log w) [Command; "-S"]) = None →
  Forall (λ line, Regexp.FindString line = "")
         (Strings.SplitLines (combined (run (log w) [Command; "-S"]))) →
  getEngines Command run w = (([], None), logged w [EvExec [Command; "-S"]])
  ∧ engines (discover Command run w).2 = []
  ∧ (∀ (w' : World) word lang,
       engines w' = [] →
       fetch word lang w' = (word, logged w' [EvNotify Inline (all_failed_text word lang)])
       ∧ executions (emitted (fetch word lang) w') = [])
  ∧ (∀ (w' : World) word_param lang_param,
       engines w' = [] →
       ToLower (TrimSpace word_param) ≠ "" →
       ToLower (TrimSpace lang_param) ≠ "" →
       Err (HGet (redis w') (ToLower (TrimSpace lang_param))
                 (ToLower (TrimSpace word_param))) ≠ None →
       (translate_handler word_param lang_param w').1
       = (StatusOK, ToLower (TrimSpace word_param))
       ∧ executions (emitted (translate_handler word_param lang_param) w') = []).
Proof.
  intros Hexit Hblank.
  assert (getEngines Command run w = (([], None), logged w [EvExec [Command; "-S"]]))
    as Hget.
  { unfold getEngines, bind, exec_Run, ret.
    by rewrite Hexit, (parse_engines_blank _ Hblank). }
  assert (∀ (w' : World) word lang, engines w' = [] →
            fetch word lang w'
            = (word, logged w' [EvNotify Inline (all_failed_text word lang)])) as Hfetch.
  { intros w' word lang Hnone.
    unfold fetch, bind, read_engines. rewrite Hnone. done. }
  split; [done|]. split; [|split].
  - unfold discover, bind. rewrite Hget. done.
  - intros w' word lang Hnone. split; [by apply Hfetch|].
    unfold emitted. rewrite (Hfetch _ _ _ Hnone). simpl. by rewrite drop_app_length.
  - intros w' word_param lang_param Hnone Hword Hlang Herr.
    pose proof (translate_handler_run word_param lang_param w' Hword Hlang) as Hmiss.
    simpl in Hmiss. destruct (Err (HGet _ _ _)); [|done].
    rewrite Hfetch in Hmiss by done. simpl in Hmiss.
    split; [by rewrite Hmiss|].
    unfold emitted. rewrite Hmiss. simpl.
    rewrite <- app_assoc, drop_app_length. done.
Qed.

End Resolve.

(** ** The notification loop *)

Lemma batch_receive_all (msgs : list string) (st : Notifier) :
  batch (receive_all msgs st) = batch st ++ msgs ∧ bot (receive_all msgs st) = bot st.
Proof.
  revert st. induction msgs as [|m msgs IH]; intros st; simpl.
  - by rewrite app_nil_r.
  - destruct (IH (on_message m st)) as [-> ->]. simpl. by rewrite <- app_assoc.
Qed.

(** C6: a tick that finds a non-empty batch joins it with newlines.  Without
    a bot the batch is dropped and nothing is sent; with a bot the text is
    sent once, a successful send empties the batch, and a failed send keeps
    the state as it was, so that the next tick sends the same events
    followed by those received meanwhile.  A tick that finds the batch empty
    sends nothing. *)
Theorem tick_policy (send : string → option error) (st : Notifier) :
  batch st ≠ [] →
  (bot st = None → on_tick send st = (mkNotifier None [], []))
  ∧ (bot st ≠ None → send (Strings.Join (batch st) newline) = None →
     on_tick send st = (mkNotifier (bot st) [], [Strings.Join (batch st) newline]))
  ∧ (bot st ≠ None → send (Strings.Join (batch st) newline) ≠ None →
     on_tick send st = (st, [Strings.Join (batch st) newline])
     ∧ ∀ (meanwhile : list string) (send' : string → option error),
         (on_tick send' (receive_all meanwhile (on_tick send st).1)).2
         = [Strings.Join (batch st ++ meanwhile) newline])
  ∧ (∀ idle : Notifier, batch idle = [] → on_tick send idle = (idle, [])).
Proof.
  intros Hbatch.
  assert (∀ l : list string, l ≠ [] → (length l =? 0)%nat = false) as Hlen.
  { intros [|x l] H; [done|]. reflexivity. }
  unfold on_tick. rewrite (Hlen _ Hbatch).
  split; [|split; [|split]].
  - intros ->. done.
  - intros Hbot ->. by destruct (bot st).
  - intros Hbot Hfail. destruct (bot st) as [b|] eqn:Eb; [|done].
    destruct (send _) eqn:Es; [|done]. split; [done|].
    intros meanwhile send'. simpl.
    destruct (batch_receive_all meanwhile st) as [Hb Hbot'].
    rewrite Hb, Hbot', Eb. rewrite Hlen.
    + by destruct (send' _).
    + destruct (batch st); [done|]. done.
  - intros idle ->. done.
Qed.

(** ** The Redis model *)

Lemma online_HDel (c : Client) key field : online (HDel c key field) = online c.
Proof.
  unfold HDel. destruct (online c) eqn:Hon; [|done].
  by destruct (hashes c !! key).
Qed.

Lemma HGetAll_lookup (c : Client) key field :
  online c = true → HGetAll c key !! field = entry c key field.
Proof.
  intros Hon. unfold HGetAll, entry. rewrite Hon.
  by destruct (hashes c !! key).
Qed.

Lemma HGetAll_ext (c c' : Client) key :
  online c = true → online c' = true →
  (∀ field, entry c' key field = entry c key field) →
  HGetAll c' key = HGetAll c key.
Proof.
  intros Hon Hon' Hsame. apply map_eq. intros field.
  by rewrite !HGetAll_lookup.
Qed.

(** [HDel] removes one entry and leaves every other entry alone. *)
Lemma entry_HDel (c : Client) key field l g :
  online c = true →
  entry (HDel c key field) l g
  = if bool_decide (l = key ∧ g = field) then None else entry c l g.
Proof.
  intros Hon. unfold HDel, entry. rewrite Hon.
  destruct (hashes c !! key) as [h|] eqn:Hh.
  - simpl. destruct (decide (delete field h = ∅)) as [Hempty|Hnonempty].
    + destruct (decide (l = key)) as [->|Hl].
      * rewrite lookup_delete_eq. simpl. rewrite Hh. simpl.
        case_bool_decide as Hc; [done|].
        assert (g ≠ field) as Hg by naive_solver.
        rewrite <- (lookup_delete_ne h field g) by done.
        by rewrite Hempty, lookup_empty.
      * rewrite lookup_delete_ne by done.
        rewrite bool_decide_eq_false_2; [done|]. by intros [? _].
    + destruct (decide (l = key)) as [->|Hl].
      * rewrite lookup_insert_eq. simpl. rewrite Hh. simpl.
        case_bool_decide as Hc.
        -- destruct Hc as [_ ->]. apply lookup_delete_eq.
        -- apply lookup_delete_ne. naive_solver.
      * rewrite lookup_insert_ne by done.
        rewrite bool_decide_eq_false_2; [done|]. by intros [? _].
  - case_bool_decide as Hc; [|done].
    destruct Hc as [-> ->]. by rewrite Hh.
Qed.

Lemma surviving_idemp (P : string → bool) (cached : option string) :
  surviving P (surviving P cached) = surviving P cached.
Proof.
  destruct cached as [v|]; [|done]. simpl.
  destruct (P v) eqn:HP; [done|]. simpl. by rewrite HP.
Qed.

(** ** The sweeps *)

Lemma for_range_ext {A B} (f g : B → A → M B) (xs : list A) (acc : B) (w : World) :
  (∀ acc x w, f acc x w = g acc x w) →
  for_range f acc xs w = for_range g acc xs w.
Proof.
  intros Hfg. revert acc w. induction xs as [|x xs IH]; intros acc w; [done|].
  simpl. unfold bind. rewrite Hfg. destruct (g acc x w) as [acc' w']. apply IH.
Qed.

Lemma redis_only_refl (w : World) : redis_only w w.
Proof. repeat split. exists []. by rewrite app_nil_r. Qed.

Lemma redis_only_trans (w1 w2 w3 : World) :
  redis_only w1 w2 → redis_only w2 w3 → redis_only w1 w3.
Proof.
  intros (He & Ho & es & Hl & Hes) (He' & Ho' & es' & Hl' & Hes').
  split; [congruence|]. split; [congruence|].
  exists (es ++ es'). split; [by rewrite Hl', Hl, app_assoc|].
  by apply Forall_app.
Qed.

Lemma redis_only_logged (w : World) (e : Event) :
  is_redis e = true → redis_only w (logged w [e]).
Proof. intros He. repeat split. exists [e]. split; [done|]. by repeat constructor. Qed.

Lemma bump_tally (lang : string) (n : nat) (acc : nat * gmap string nat) :
  ((tally lang acc).1 + n, bump lang n (tally lang acc).2)
  = (acc.1 + S n, bump lang (S n) acc.2).
Proof.
  unfold tally. simpl. f_equal; [lia|].
  destruct n as [|n]; simpl.
  - done.
  - rewrite lookup_insert_eq, insert_insert_eq. simpl. f_equal. lia.
Qed.

(** The inner loop issues one [HDel] per doomed field and tallies it. *)
Lemma sweep_entries_run (P : string → bool) lang (kvs : list (string * string))
    (acc : nat * gmap string nat) (w : World) :
  for_range (sweep_entry P lang) acc kvs w
  = ((acc.1 + length (doomed_fields P kvs), bump lang (length (doomed_fields P kvs)) acc.2),
     del_all lang (doomed_fields P kvs) w).
Proof.
  revert acc w. induction kvs as [|kv kvs IH]; intros acc w.
  - simpl. unfold ret. destruct acc. simpl. f_equal. f_equal. lia.
  - simpl. unfold bind at 1. unfold sweep_entry at 1. unfold doomed_fields.
    rewrite filter_cons. destruct (decide (P kv.2 = true)) as [HP|HP].
    + rewrite HP. unfold bind, client_HDel, on_redis, ret. simpl.
      rewrite IH. unfold doomed_fields. by rewrite bump_tally.
    + apply not_true_is_false in HP. rewrite HP.
      unfold ret. by rewrite IH.
Qed.

Lemma del_all_redis_only lang (fields : list string) (w : World) :
  redis_only w (del_all lang fields w).
Proof.
  revert w. induction fields as [|f fields IH]; intros w; [apply redis_only_refl|].
  simpl. eapply redis_only_trans; [|apply IH].
  split; [done|]. split; [apply online_HDel|].
  exists [EvHDel lang f]. split; [done|]. by repeat constructor.
Qed.

Lemma del_all_entry lang (fields : list string) (w : World) l g :
  online (redis w) = true →
  entry (redis (del_all lang fields w)) l g
  = if bool_decide (l = lang ∧ g ∈ fields) then None else entry (redis w) l g.
Proof.
  revert w. induction fields as [|f fields IH]; intros w Hon.
  - simpl. rewrite bool_decide_eq_false_2; [done|]. intros [_ H]. by apply elem_of_nil in H.
  - simpl. rewrite IH by (simpl; by rewrite online_HDel). simpl.
    rewrite entry_HDel by done.
    destruct (bool_decide (l = lang ∧ g ∈ fields)) eqn:Hrest;
      destruct (bool_decide (l = lang ∧ g = f)) eqn:Hhere;
      destruct (bool_decide (l = lang ∧ g ∈ f :: fields)) eqn:Hall; try done;
      rewrite ?bool_decide_eq_true, ?bool_decide_eq_false, ?elem_of_cons in *;
      exfalso; tauto.
Qed.

Lemma elem_of_doomed_fields (P : string → bool) (c : Client) lang g :
  online c = true →
  g ∈ doomed_fields P (map_to_list (HGetAll c lang))
  ↔ ∃ v, entry c lang g = Some v ∧ P v = true.
Proof.
  intros Hon. unfold doomed_fields. rewrite list_elem_of_fmap. split.
  - intros ([g' v] & -> & Hin). apply list_elem_of_filter in Hin as [HP Hin].
    apply elem_of_map_to_list in Hin. rewrite HGetAll_lookup in Hin by done.
    by exists v.
  - intros (v & Hv & HP). exists (g, v). split; [done|].
    apply list_elem_of_filter. split; [done|].
    apply elem_of_map_to_list. by rewrite HGetAll_lookup.
Qed.

Lemma length_doomed_fields (P : string → bool) (c : Client) lang :
  length (doomed_fields P (map_to_list (HGetAll c lang))) = doomed P c lang.
Proof. unfold doomed_fields, doomed. by rewrite length_fmap. Qed.

(** One round of the outer loop. *)
Lemma sweep_lang_run (P : string → bool) lang (acc : nat * gmap string nat) (w : World) :
  sweep_lang P acc lang w
  = ((acc.1 + doomed P (redis w) lang, bump lang (doomed P (redis w) lang) acc.2),
     del_all lang (doomed_fields P (map_to_list (HGetAll (redis w) lang)))
             (logged w [EvHGetAll lang])).
Proof.
  unfold sweep_lang, bind, client_HGetAll, on_redis. simpl.
  rewrite sweep_entries_run. by rewrite length_doomed_fields.
Qed.

Lemma sweep_lang_entry (P : string → bool) lang (acc : nat * gmap string nat)
    (w : World) l g :
  online (redis w) = true →
  entry (redis (sweep_lang P acc lang w).2) l g
  = if bool_decide (l = lang) then surviving P (entry (redis w) l g)
    else entry (redis w) l g.
Proof.
  intros Hon. rewrite sweep_lang_run. simpl.
  rewrite del_all_entry by done. simpl.
  destruct (decide (l = lang)) as [->|Hl].
  - rewrite (bool_decide_eq_true_2 (lang = lang)) by done.
    destruct (entry (redis w) lang g) as [v|] eqn:Hv; simpl.
    + destruct (P v) eqn:HP.
      * rewrite bool_decide_eq_true_2; [done|]. split; [done|].
        apply elem_of_doomed_fields; [done|]. by exists v.
      * rewrite bool_decide_eq_false_2; [done|]. intros [_ Hin].
        apply elem_of_doomed_fields in Hin as (v' & Hv' & HP'); [|done].
        congruence.
    + rewrite bool_decide_eq_false_2; [done|]. intros [_ Hin].
      apply elem_of_doomed_fields in Hin as (v' & Hv' & HP'); [|done].
      congruence.
  - rewrite (bool_decide_eq_false_2 (l = lang)) by done.
    rewrite bool_decide_eq_false_2; [done|]. by intros [? _].
Qed.

Lemma sweep_lang_redis_only (P : string → bool) lang (acc : nat * gmap string nat)
    (w : World) :
  redis_only w (sweep_lang P acc lang w).2.
Proof.
  rewrite sweep_lang_run. simpl.
  eapply redis_only_trans; [by apply (redis_only_logged w (EvHGetAll lang))|].
  apply del_all_redis_only.
Qed.

Lemma doomed_ext (P : string → bool) (c c' : Client) lang :
  online c = true → online c' = true →
  (∀ g, entry c' lang g = entry c lang g) →
  doomed P c' lang = doomed P c lang.
Proof. intros Hon Hon' Hsame. unfold doomed. by rewrite (HGetAll_ext c c'). Qed.

(** The outer loop over distinct keys: every visited key loses its doomed
    fields, the count grows by their number, and [stats] gets one entry per
    visited key that lost something. *)
Lemma sweep_langs_run (P : string → bool) (ks : list string)
    (acc : nat * gmap string nat) (w : World) :
  online (redis w) = true →
  NoDup ks →
  ∃ stats' w',
    for_range (sweep_lang P) acc ks w
    = ((acc.1 + sum_list (doomed P (redis w) <$> ks), stats'), w')
    ∧ redis_only w w'
    ∧ (∀ l g, entry (redis w') l g
              = if bool_decide (l ∈ ks) then surviving P (entry (redis w) l g)
                else entry (redis w) l g)
    ∧ (∀ l, stats' !! l
            = if bool_decide (l ∈ ks ∧ 0 < doomed P (redis w) l)
              then Some (default 0 (acc.2 !! l) + doomed P (redis w) l)
              else acc.2 !! l).
Proof.
  intros Hon Hnodup. revert acc w Hon.
  induction Hnodup as [|k ks Hk Hnodup IH]; intros acc w Hon.
  - exists acc.2, w. split; [|split; [|split]].
    + destruct acc. simpl. unfold ret. f_equal. f_equal. lia.
    + apply redis_only_refl.
    + intros l g. rewrite bool_decide_eq_false_2; [done|]. apply not_elem_of_nil.
    + intros l. rewrite bool_decide_eq_false_2; [done|].
      intros [H _]. by apply elem_of_nil in H.
  - simpl. unfold bind at 1.
    pose proof (sweep_lang_redis_only P k acc w) as Hro.
    pose proof (sweep_lang_entry P k acc w) as Hentry.
    rewrite sweep_lang_run in *. simpl in Hro, Hentry.
    set (w1 := del_all k _ _) in *.
    assert (online (redis w1) = true) as Hon1.
    { destruct Hro as (_ & Ho & _). by rewrite Ho. }
    destruct (IH (acc.1 + doomed P (redis w) k, bump k (doomed P (redis w) k) acc.2)
                 w1 Hon1) as (stats' & w' & Hrun & Hro' & Hentries & Hstats).
    assert (∀ l, l ≠ k → doomed P (redis w1) l = doomed P (redis w) l) as Hsame.
    { intros l Hl. apply doomed_ext; [done..|]. intros g.
      rewrite Hentry by done. by rewrite bool_decide_eq_false_2. }
    exists stats', w'. split; [|split; [|split]].
    + assert (doomed P (redis w1) <$> ks = doomed P (redis w) <$> ks) as Hks.
      { apply list_fmap_ext. intros i l Hl. apply Hsame.
        intros ->. apply Hk. by eapply list_elem_of_lookup_2. }
      rewrite Hrun, Hks. simpl. f_equal. f_equal. symmetry. apply Nat.add_assoc.
    + by eapply redis_only_trans.
    + intros l g. rewrite Hentries, Hentry by done.
      destruct (decide (l = k)) as [->|Hl].
      * rewrite (bool_decide_eq_true_2 (k = k)) by done.
        rewrite (bool_decide_eq_false_2 (k ∈ ks)) by done.
        rewrite bool_decide_eq_true_2; [done|]. apply list_elem_of_here.
      * rewrite (bool_decide_eq_false_2 (l = k)) by done.
        destruct (decide (l ∈ ks)) as [Hin|Hin].
        -- rewrite !bool_decide_eq_true_2; [done| |done]. by apply list_elem_of_further.
        -- rewrite !bool_decide_eq_false_2; [done| |done].
           intros H. apply elem_of_cons in H as [?|?]; done.
    + intros l. rewrite Hstats. simpl.
      destruct (decide (l = k)) as [->|Hl].
      * rewrite (bool_decide_eq_false_2 (k ∈ ks ∧ _)) by (by intros [? _]).
        destruct (doomed P (redis w) k) as [|n] eqn:Hn; simpl.
        -- rewrite bool_decide_eq_false_2; [done|]. intros [_ ?]. lia.
        -- rewrite lookup_insert_eq.
           rewrite bool_decide_eq_true_2; [done|]. split; [apply list_elem_of_here|lia].
      * rewrite Hsame by done.
        assert (bump k (doomed P (redis w) k) acc.2 !! l = acc.2 !! l) as ->.
        { unfold bump. destruct (doomed P (redis w) k); [done|].
          by rewrite lookup_insert_ne. }
        destruct (decide (l ∈ ks ∧ 0 < doomed P (redis w) l)) as [[Hin Hpos]|Hno].
        -- rewrite !bool_decide_eq_true_2; [done| |done].
           split; [by apply list_elem_of_further|done].
        -- rewrite !bool_decide_eq_false_2; [done| |done].
           intros [H Hpos]. apply Hno. split; [|done].
           apply elem_of_cons in H as [?|?]; done.
Qed.

Lemma redis_events_silent (es : list Event) :
  Forall (λ e, is_redis e = true) es → notifications es = [] ∧ executions es = [].
Proof.
  induction 1 as [|e es He _ [IHn IHe]]; [done|].
  destruct e; try discriminate; simpl; by rewrite ?IHn, ?IHe.
Qed.

Lemma elem_of_Keys (c : Client) l :
  online c = true → l ∈ Keys c ↔ is_Some (hashes c !! l).
Proof.
  intros Hon. unfold Keys. rewrite Hon, list_elem_of_fmap. split.
  - intros ([l' h] & -> & Hin). apply elem_of_map_to_list in Hin. by exists h.
  - intros [h Hh]. exists (l, h). split; [done|]. by apply elem_of_map_to_list.
Qed.

Lemma NoDup_Keys (c : Client) : NoDup (Keys c).
Proof.
  unfold Keys. destruct (online c); [|constructor]. apply NoDup_fst_map_to_list.
Qed.

Lemma emitted_logged {A} (m : M A) (w : World) (a : A) (w' : World) (es : list Event) :
  m w = (a, w') → log w' = log w ++ es → emitted m w = es.
Proof. intros Hrun Hlog. unfold emitted. rewrite Hrun. simpl. by rewrite Hlog, drop_app_length. Qed.

Lemma client_Keys_run pattern (w : World) :
  client_Keys pattern w = (Keys (redis w), logged w [EvKeys pattern]).
Proof. done. Qed.

(** A sweep against a reachable server: every entry whose value satisfies
    [P] is gone, every other entry is as before, and the report is as
    [reports] describes. *)
Lemma sweep_online (P : string → bool) (headline : nat → string) (w : World) :
  online (redis w) = true →
  engines (sweep P headline w).2 = engines w
  ∧ online (redis (sweep P headline w).2) = true
  ∧ (∀ l g, entry (redis (sweep P headline w).2) l g = surviving P (entry (redis w) l g))
  ∧ reports P headline (redis w) (notifications (emitted (sweep P headline) w))
  ∧ executions (emitted (sweep P headline) w) = []
  ∧ log (sweep P headline w).2 = log w ++ emitted (sweep P headline) w.
Proof.
  intros Hon.
  destruct (sweep_langs_run P (Keys (redis w)) (0, ∅) (logged w [EvKeys "*"]) Hon
              (NoDup_Keys _)) as (stats' & w1 & Hrun & Hro & Hentries & Hstats).
  simpl in Hrun, Hentries, Hstats.
  destruct Hro as (Heng & Hon1 & es & Hlog & Hes). simpl in Heng, Hon1, Hlog.
  destruct (redis_events_silent es Hes) as [Hnotes Hexecs].
  set (total := sum_list (doomed P (redis w) <$> Keys (redis w))) in *.
  assert (sweep P headline w = report headline (total, stats') w1) as Hsweep.
  { unfold sweep, bind. by rewrite client_Keys_run, Hrun. }
  assert (∀ l g, entry (redis w1) l g = surviving P (entry (redis w) l g)) as Hall.
  { intros l g. rewrite Hentries. case_bool_decide as Hin; [done|].
    rewrite elem_of_Keys in Hin by done.
    unfold entry. destruct (hashes (redis w) !! l); [|done].
    exfalso. by apply Hin. }
  unfold reports. fold total. rewrite Hsweep. unfold report. simpl.
  destruct total as [|n] eqn:Htotal; simpl.
  - unfold ret. simpl. split; [done|]. split; [by rewrite Hon1|]. split; [done|].
    erewrite (emitted_logged _ w tt w1 ([EvKeys "*"] ++ es));
      [| by rewrite Hsweep | by rewrite Hlog, <- app_assoc].
    split; [|split; [|by rewrite Hlog, <- app_assoc]].
    + unfold notifications in *. rewrite !omap_app. simpl. by rewrite Hnotes.
    + unfold executions in *. rewrite !omap_app. simpl. by rewrite Hexecs.
  - unfold emit. simpl. split; [done|]. split; [by rewrite Hon1|]. split; [done|].
    erewrite (emitted_logged _ w tt _
                ([EvKeys "*"] ++ es ++ [EvNotify Spawned (summary (headline (S n)) stats')]));
      [| by rewrite Hsweep | simpl; by rewrite Hlog, <- !app_assoc].
    split; [|split; [|by rewrite Hlog, <- !app_assoc]];
      [|unfold executions in *; rewrite !omap_app; simpl; by rewrite Hexecs].
    unfold notifications in *. rewrite !omap_app. simpl. rewrite Hnotes. simpl.
    exists (stat_line <$> map_to_list stats'). split; [done|].
    apply fmap_Permutation. apply NoDup_Permutation.
    + apply NoDup_map_to_list.
    + apply NoDup_filter, NoDup_fmap_2; [|apply NoDup_Keys].
      intros l1 l2 Heq. by injection Heq.
    + intros [l m]. rewrite elem_of_map_to_list, Hstats, lookup_empty. simpl.
      rewrite list_elem_of_filter, list_elem_of_fmap. simpl. split.
      * case_bool_decide as Hc; [|done]. intros [= <-]. destruct Hc as [Hin Hpos].
        split; [done|]. by exists l.
      * intros [Hpos (l' & [= -> ->] & Hin)].
        by rewrite bool_decide_eq_true_2.
Qed.

Lemma sweep_offline (P : string → bool) (headline : nat → string) (w : World) :
  online (redis w) = false →
  sweep P headline w = (tt, logged w [EvKeys "*"]).
Proof.
  intros Hoff. unfold sweep, bind, client_Keys, on_redis, Keys. simpl.
  by rewrite Hoff.
Qed.

(** With nothing to remove, the outer loop only reads. *)
Lemma sweep_langs_clean (P : string → bool) (ks : list string)
    (acc : nat * gmap string nat) (w : World) :
  (∀ l, doomed_fields P (map_to_list (HGetAll (redis w) l)) = []) →
  for_range (sweep_lang P) acc ks w = (acc, logged w (EvHGetAll <$> ks)).
Proof.
  revert acc w. induction ks as [|k ks IH]; intros acc w Hclean.
  - simpl. by rewrite logged_nil.
  - simpl. unfold bind. rewrite sweep_lang_run.
    rewrite <- length_doomed_fields, Hclean. simpl.
    rewrite IH by done. rewrite logged_logged.
    destruct acc. simpl. by rewrite Nat.add_0_r.
Qed.

Lemma sweep_clean (P : string → bool) (headline : nat → string) (w : World) :
  (online (redis w) = true → ∀ l g v, entry (redis w) l g = Some v → P v = false) →
  sweep P headline w
  = (tt, logged w (EvKeys "*" :: (EvHGetAll <$> Keys (redis w)))).
Proof.
  intros Hclean. destruct (online (redis w)) eqn:Hon.
  - unfold sweep, bind. rewrite client_Keys_run, sweep_langs_clean.
    + unfold report, ret. simpl. by rewrite logged_logged.
    + intros l. simpl. apply elem_of_nil_inv. intros g Hin.
      apply elem_of_doomed_fields in Hin as (v & Hv & HP); [|done].
      rewrite (Hclean eq_refl _ _ _ Hv) in HP. done.
  - rewrite sweep_offline by done. unfold Keys. by rewrite Hon.
Qed.

(** The two sweeps of the program are instances of [sweep]. *)
Lemma removeEmptyTranslations_sweep (w : World) :
  removeEmptyTranslations w = sweep is_empty empty_headline w.
Proof.
  unfold removeEmptyTranslations, sweep, bind. rewrite client_Keys_run.
  erewrite for_range_ext; [done|]. intros acc lang w'.
  unfold sweep_lang, bind. destruct (client_HGetAll lang w') as [h w''].
  apply for_range_ext. intros acc' kv w3. unfold sweep_entry, is_empty.
  destruct (decide (kv.2 = "")) as [He|He].
  - by rewrite bool_decide_eq_true_2.
  - by rewrite bool_decide_eq_false_2.
Qed.

Section NonPrintableSweep.

Variable graphic_ranges : rune → bool.

Lemma scan_value_sweep lang word (chars : list rune) (acc : nat * gmap string nat)
    (w : World) :
  scan_value graphic_ranges lang word chars acc w
  = (if existsb (λ char, negb (Unicode.IsGraphic graphic_ranges char)) chars
     then client_HDel lang word ;; ret (tally lang acc)
     else ret acc) w.
Proof.
  induction chars as [|char chars IH]; [done|]. simpl.
  destruct (negb (Unicode.IsGraphic graphic_ranges char)); [done|]. apply IH.
Qed.

Lemma removeNonPrintableTranslations_sweep (w : World) :
  removeNonPrintableTranslations graphic_ranges w
  = sweep (non_printable graphic_ranges) nonprintable_headline w.
Proof.
  unfold removeNonPrintableTranslations, sweep, bind. rewrite client_Keys_run.
  erewrite for_range_ext; [done|]. intros acc lang w'.
  unfold sweep_lang, bind. destruct (client_HGetAll lang w') as [h w''].
  apply for_range_ext. intros acc' kv w3. apply scan_value_sweep.
Qed.


Lemma cleanup_run (w : World) :
  cleanup graphic_ranges w
  = removeNonPrintableTranslations graphic_ranges (removeEmptyTranslations w).2.
Proof. unfold cleanup, bind. by destruct (removeEmptyTranslations w). Qed.


(** C9: a sweep started in the state the previous sweep left deletes
    nothing and sends nothing: the cache is the same afterwards, and the
    commands it issues are reads only. *)
Theorem cleanup_idempotent (w : World) :
  let once := (cleanup graphic_ranges w).2 in
  redis (cleanup graphic_ranges once).2 = redis once
  ∧ Forall (λ e, is_write e = false) (emitted (cleanup graphic_ranges) once)
  ∧ notifications (emitted (cleanup graphic_ranges) once) = []
  ∧ ∀ lang word,
      entry (redis (cleanup graphic_ranges once).2) lang word
      = entry (redis once) lang word.
Proof.
  intros once.
  assert (online (redis once) = true →
          ∀ l g v, entry (redis once) l g = Some v
                   → is_empty v = false ∧ non_printable graphic_ranges v = false)
    as Hsettled.
  { intros Hon1 l g v Hv. unfold once in *. rewrite cleanup_run in *.
    rewrite removeNonPrintableTranslations_sweep, removeEmptyTranslations_sweep in *.
    destruct (online (redis w)) eqn:Hon.
    - destruct (sweep_online is_empty empty_headline w Hon)
        as (_ & Hon' & Hentry1 & _).
      destruct (sweep_online (non_printable graphic_ranges) nonprintable_headline _ Hon')
        as (_ & _ & Hentry2 & _).
      rewrite Hentry2, Hentry1 in Hv.
      destruct (entry (redis w) l g) as [v0|]; [|done]. simpl in Hv.
      destruct (is_empty v0) eqn:He; [done|]. simpl in Hv.
      destruct (non_printable graphic_ranges v0) eqn:Hn; [done|].
      injection Hv as <-. done.
    - rewrite (sweep_offline _ _ w Hon) in Hon1. simpl in Hon1.
      rewrite sweep_offline in Hon1 by done. simpl in Hon1. congruence. }
  assert (cleanup graphic_ranges once
          = (tt, logged once ((EvKeys "*" :: (EvHGetAll <$> Keys (redis once)))
                              ++ (EvKeys "*" :: (EvHGetAll <$> Keys (redis once))))))
    as Hrun.
  { rewrite cleanup_run, removeEmptyTranslations_sweep.
    rewrite (sweep_clean is_empty) by (intros Hon l g v Hv; by apply (Hsettled Hon l g v)).
    simpl. rewrite removeNonPrintableTranslations_sweep.
    rewrite sweep_clean by (intros Hon l g v Hv; by apply (Hsettled Hon l g v)).
    simpl. by rewrite logged_logged. }
  rewrite Hrun. simpl. split; [done|].
  erewrite emitted_logged; [|exact Hrun|done].
  split; [|split; [|done]].
  - apply Forall_app. split; (constructor; [done|]);
      apply Forall_fmap, Forall_true; done.
  - unfold notifications. rewrite omap_app. simpl.
    assert (∀ ks : list string,
              omap (λ e, match e with
                         | EvNotify mode msg => Some (mode, msg)
                         | _ => None
                         end) (EvHGetAll <$> ks) = []) as Hreads.
    { intros ks. by induction ks. }
    by rewrite Hreads.
Qed.

End NonPrintableSweep.

(** ** Producers and the channel *)

Lemma reports_spawned (P : string → bool) (headline : nat → string) (c : Client)
    (notes : list (SendMode * string)) :
  reports P headline c notes → Forall (λ n, n.1 = Spawned) notes.
Proof.
  unfold reports. destruct (_ =? _)%nat.
  - intros ->. constructor.
  - intros (lines & -> & _). by repeat constructor.
Qed.

Lemma sweep_sends_spawned (P : string → bool) (headline : nat → string) (w : World) :
  ∃ es, log (sweep P headline w).2 = log w ++ es
        ∧ Forall (λ n, n.1 = Spawned) (notifications es).
Proof.
  destruct (online (redis w)) eqn:Hon.
  - destruct (sweep_online P headline w Hon) as (_ & _ & _ & Hrep & _ & Hlog).
    eexists. split; [exact Hlog|]. by eapply reports_spawned.
  - exists [EvKeys "*"]. rewrite sweep_offline by done. split; [done|]. constructor.
Qed.

Lemma spawned_step (msg : string) (sys : System) :
  is_Some (producer_step Spawned msg sys).
Proof. by eexists. Qed.

Lemma never_waits_spawned {A} (m : M A) :
  (∀ w, Forall (λ n, n.1 = Spawned) (notifications (emitted m w))) → never_waits m.
Proof.
  intros Hall w sys mode msg Hin.
  specialize (Hall w). rewrite Forall_forall in Hall.
  specialize (Hall _ Hin). simpl in Hall. subst mode. apply spawned_step.
Qed.

(** X19: [notifyChannel] has no buffer, so a send statement on it
    completes only while the notification loop is parked in its [select].
    The janitor, the discovery goroutine and the helpers
    [infoNotification] and [errorNotification] hand every message to a
    goroutine of its own, and therefore get past each notification whatever
    the loop is doing. *)
Theorem spawned_sends_never_wait (graphic_ranges : rune → bool) (Command : string)
    (run : list Event → list string → Process) :
  (∀ msg sys, is_Some (chan_send msg sys) ↔ point sys = Selecting)
  ∧ never_waits (cleanup graphic_ranges)
  ∧ never_waits (discover Command run)
  ∧ (∀ message, never_waits (infoNotification message))
  ∧ (∀ message, never_waits (errorNotification message)).
Proof.
  split; [|split; [|split; [|split]]].
  - intros msg sys. unfold chan_send, receiver_ready.
    destruct (point sys); simpl; split; intros H; try done; try by eexists.
  - apply never_waits_spawned. intros w.
    destruct (sweep_sends_spawned is_empty empty_headline w) as (es1 & Hlog1 & Hs1).
    destruct (sweep_sends_spawned (non_printable graphic_ranges) nonprintable_headline
                (sweep is_empty empty_headline w).2) as (es2 & Hlog2 & Hs2).
    unfold emitted. rewrite cleanup_run, removeEmptyTranslations_sweep.
    rewrite removeNonPrintableTranslations_sweep, Hlog2, Hlog1.
    rewrite <- app_assoc, drop_app_length.
    unfold notifications in *. rewrite omap_app. by apply Forall_app.
  - apply never_waits_spawned. intros w.
    unfold emitted, discover, getEngines, bind, exec_Run, emit, ret,
      errorNotification, infoNotification, write_engines, logged. simpl.
    destruct (exit (run (log w) [Command; "-S"])); simpl;
      rewrite <- app_assoc, drop_app_length; by repeat constructor.
  - intros message. apply never_waits_spawned. intros w.
    unfold emitted, infoNotification, emit. simpl.
    rewrite drop_app_length. by repeat constructor.
  - intros message. apply never_waits_spawned. intros w.
    unfold emitted, errorNotification, emit. simpl.
    rewrite drop_app_length. by repeat constructor.
Qed.

(** C2: [onTranslationError] is the one producer that sends on
    [notifyChannel] with a plain send statement instead of a goroutine of
    its own.  When every engine fails while the loop is inside [bot.Send],
    that send cannot complete, so the request goroutine waits for the
    loop. *)
Lemma resolver_send_waits :
  let request := fetch Strings.ToLowerASCII Strings.TrimSpaceASCII "/usr/bin/trans"
                       demo_run "cat" "de" in
  let w := mkWorld (mkClient true ∅) ["google"] [] in
  let busy := mkSystem Delivering
                (mkNotifier (Some TelegramBot) ["import-lang backend started"]) [] [] in
  notifications (emitted request w) = [(Inline, all_failed_text "cat" "de")]
  ∧ producer_step Inline (all_failed_text "cat" "de") busy = None
  ∧ ¬ never_waits request.
Proof.
  intros request w busy.
  assert (notifications (emitted request w) = [(Inline, all_failed_text "cat" "de")])
    as Hsent by (vm_compute; reflexivity).
  split; [done|]. split; [reflexivity|].
  intros Hnever.
  destruct (Hnever w busy Inline (all_failed_text "cat" "de")) as [sys' Hstep].
  - rewrite Hsent. apply list_elem_of_here.
  - discriminate Hstep.
Qed.

(** ** The theorems at concrete inputs *)

Lemma fetch_falls_back_witness :
  engines demo_world !! 1 = Some "bing"
  ∧ attempt_at Strings.ToLowerASCII Strings.TrimSpaceASCII "/usr/bin/trans" demo_run
      "cat" "de" demo_world 1 "bing" = ("katze", None)
  ∧ (fetch Strings.ToLowerASCII Strings.TrimSpaceASCII "/usr/bin/trans" demo_run
       "cat" "de" demo_world).1 = "katze".
Proof.
  assert (∀ j e, j < 1 → engines demo_world !! j = Some e →
            (attempt_at Strings.ToLowerASCII Strings.TrimSpaceASCII "/usr/bin/trans"
               demo_run "cat" "de" demo_world j e).2 ≠ None) as Hfail.
  { intros j e Hj He. destruct j as [|j]; [|lia].
    injection He as <-. vm_compute. discriminate. }
  split; [reflexivity|]. split; [reflexivity|].
  rewrite (proj1 (fetch_falls_back Strings.ToLowerASCII Strings.TrimSpaceASCII
                    "/usr/bin/trans" demo_run "cat" "de" demo_world 1 "bing" "katze"
                    eq_refl Hfail eq_refl)).
  reflexivity.
Defined.

Lemma fetch_all_engines_fail_witness :
  let w := mkWorld (mkClient true ∅) ["google"; "yandex"] [] in
  "cat" ≠ "" ∧ "de" ≠ ""
  ∧ (fetch Strings.ToLowerASCII Strings.TrimSpaceASCII "/usr/bin/trans" demo_run
       "cat" "de" w).1 = "cat".
Proof.
  intros w.
  assert (∀ j e, engines w !! j = Some e →
            (attempt_at Strings.ToLowerASCII Strings.TrimSpaceASCII "/usr/bin/trans"
               demo_run "cat" "de" w j e).2 ≠ None) as Hfail.
  { intros [|[|j]] e He; [injection He as <-..|discriminate He];
      vm_compute; discriminate. }
  assert ("cat" ≠ "") as Hword by discriminate.
  assert ("de" ≠ "") as Hlang by discriminate.
  split; [done|]. split; [done|].
  rewrite (proj1 (fetch_all_engines_fail Strings.ToLowerASCII Strings.TrimSpaceASCII
                    "/usr/bin/trans" demo_run "cat" "de" w Hword Hlang Hfail)).
  reflexivity.
Defined.

Lemma handler_rejects_empty_witness :
  Strings.ToLowerASCII (Strings.TrimSpaceASCII "  ") = ""
  ∧ translate_handler Strings.ToLowerASCII Strings.TrimSpaceASCII "/usr/bin/trans"
      demo_run "  " "de" demo_world = ((StatusOK, ""), demo_world).
Proof.
  split; [reflexivity|].
  apply (handler_rejects_empty Strings.ToLowerASCII Strings.TrimSpaceASCII
           "/usr/bin/trans" demo_run "  " "de" demo_world).
  left. reflexivity.
Defined.

Lemma handler_reads_through_witness :
  Strings.ToLowerASCII (Strings.TrimSpaceASCII " Dog ") = "dog"
  ∧ Strings.ToLowerASCII (Strings.TrimSpaceASCII "DE") = "de"
  ∧ HGet (redis demo_world) "de" "dog" = mkStringCmd "hund" None
  ∧ translate_handler Strings.ToLowerASCII Strings.TrimSpaceASCII "/usr/bin/trans"
      demo_run " Dog " "DE" demo_world
    = ((StatusOK, "hund"), logged demo_world [EvHGet "de" "dog"]).
Proof.
  assert (Strings.ToLowerASCII (Strings.TrimSpaceASCII " Dog ") ≠ "") as Hword
    by (vm_compute; discriminate).
  assert (Strings.ToLowerASCII (Strings.TrimSpaceASCII "DE") ≠ "") as Hlang
    by (vm_compute; discriminate).
  split; [reflexivity|]. split; [reflexivity|]. split; [reflexivity|].
  apply (proj1 (handler_reads_through Strings.ToLowerASCII Strings.TrimSpaceASCII
                  "/usr/bin/trans" demo_run " Dog " "DE" demo_world Hword Hlang)).
  reflexivity.
Defined.

Lemma discovery_without_engines_witness :
  exit (blank_run (log demo_world) ["/usr/bin/trans"; "-S"]) = None
  ∧ Forall (λ line, Regexp.FindString line = "")
      (Strings.SplitLines (combined (blank_run (log demo_world) ["/usr/bin/trans"; "-S"])))
  ∧ engines (discover "/usr/bin/trans" blank_run demo_world).2 = [].
Proof.
  assert (Forall (λ line, Regexp.FindString line = "")
            (Strings.SplitLines (combined (blank_run (log demo_world) ["/usr/bin/trans"; "-S"]))))
    as Hblank by (repeat constructor).
  split; [reflexivity|]. split; [exact Hblank|].
  apply (discovery_without_engines Strings.ToLowerASCII Strings.TrimSpaceASCII
           "/usr/bin/trans" blank_run demo_world eq_refl Hblank).
Defined.

Lemma tick_policy_witness :
  let st := mkNotifier (Some TelegramBot) ["first"; "second"] in
  let failing := λ _ : string, Some "Bad Gateway" in
  batch st ≠ []
  ∧ on_tick failing st = (st, ["first" +:+ newline +:+ "second"]).
Proof.
  intros st failing.
  assert (batch st ≠ []) as Hbatch by discriminate.
  split; [exact Hbatch|].
  destruct (tick_policy failing st Hbatch) as (_ & _ & Hretry & _).
  apply Hretry; discriminate.
Defined.


(** * Further properties of the code *)

(** ** One attempt and the fallback, whatever the engines do *)

Section Fallback.

Variable ToLower TrimSpace : string → string.
Variable Command : string.
Variable run : list Event → list string → Process.

Local Abbreviation invokeTrans := (invokeTrans ToLower TrimSpace Command run).
Local Abbreviation fetch_loop := (fetch_loop ToLower TrimSpace Command run).
Local Abbreviation fetch := (fetch ToLower TrimSpace Command run).
Local Abbreviation translate_handler := (translate_handler ToLower TrimSpace Command run).
Local Abbreviation argv_of word lang := (EvExec ∘ trans_argv Command word lang).

Lemma invokeTrans_value word lang engine (w : World) :
  (invokeTrans word lang engine w).1
  = match exit (run (log w) (trans_argv Command word lang engine)) with
    | Some err => ("", Some err)
    | None =>
        let ans := ToLower (TrimSpace
                     (stdout (run (log w) (trans_argv Command word lang engine)))) in
        if decide (ans = "") then ("", Some "empty reply from API") else (ans, None)
    end.
Proof.
  unfold invokeTrans, bind, exec_Run, ret.
  destruct (exit _); [done|]. by destruct (decide _).
Qed.

Lemma invokeTrans_answer_nonempty word lang engine (w : World) ans :
  (invokeTrans word lang engine w).1 = (ans, None) → ans ≠ "".
Proof.
  rewrite invokeTrans_value. destruct (exit _); [discriminate|]. simpl.
  destruct (decide _) as [|Hne]; [discriminate|]. by intros [= <-].
Qed.

(** X1: [invokeTrans] runs exactly one process and touches nothing else.
    It succeeds exactly when that process exits without error and its
    trimmed, lower-cased standard output is not empty, and then returns
    that text; in every other case the text it returns is empty and the
    error is the process error or [empty reply from API]. *)
Theorem invokeTrans_outcome word lang engine (w : World) :
  let cmd := run (log w) (trans_argv Command word lang engine) in
  let ans := ToLower (TrimSpace (stdout cmd)) in
  (invokeTrans word lang engine w).2
  = logged w [EvExec (trans_argv Command word lang engine)]
  ∧ ((invokeTrans word lang engine w).1.2 = None ↔ exit cmd = None ∧ ans ≠ "")
  ∧ ((invokeTrans word lang engine w).1.2 = None →
     (invokeTrans word lang engine w).1.1 = ans)
  ∧ ((invokeTrans word lang engine w).1.2 ≠ None →
     (invokeTrans word lang engine w).1.1 = "")
  ∧ (∀ err, exit cmd = Some err → (invokeTrans word lang engine w).1 = ("", Some err))
  ∧ (exit cmd = None → ans = "" →
     (invokeTrans word lang engine w).1 = ("", Some "empty reply from API")).
Proof.
  intros cmd ans. split.
  - rewrite invokeTrans_run at 1. done.
  - rewrite invokeTrans_value. fold cmd. simpl. fold ans.
    destruct (exit cmd) as [err|]; simpl.
    + repeat split; try done.
      * by intros [? _].
      * by intros err' [= ->].
    + destruct (decide (ans = "")) as [He|He]; simpl; repeat split; try done.
      by intros [_ ?].
Qed.

(** What the loop of [fetch] does for any behaviour of the engines: it
    tries a prefix of the list, and either that prefix is the whole list
    and nothing was found, or its last engine answered. *)
Lemma fetch_loop_shape word lang (engs : list string) (w : World) :
  ∃ tried,
    tried `prefix_of` engs
    ∧ ((fetch_loop word lang engs w = (None, logged w (argv_of word lang <$> tried))
        ∧ tried = engs)
       ∨ ∃ ans,
           ans ≠ ""
           ∧ tried ≠ []
           ∧ fetch_loop word lang engs w
             = (Some ans,
                mkWorld (HSet (redis w) lang word ans) (engines w)
                  (log w ++ (argv_of word lang <$> tried) ++ [EvHSet lang word ans]))).
Proof.
  revert w. induction engs as [|e engs IH]; intros w.
  - exists []. split; [done|]. left. simpl. by rewrite logged_nil.
  - assert (fetch_loop word lang (e :: engs) w
            = match (invokeTrans word lang e w).1 with
              | (ans, None) =>
                  (Some ans,
                   mkWorld (HSet (redis w) lang word ans) (engines w)
                     (log w ++ [EvExec (trans_argv Command word lang e);
                                EvHSet lang word ans]))
              | (_, Some _) =>
                  fetch_loop word lang engs
                    (logged w [EvExec (trans_argv Command word lang e)])
              end) as Hstep.
    { simpl. unfold bind at 1. rewrite invokeTrans_run.
      destruct (invokeTrans word lang e w).1 as [ans [err|]]; [done|].
      unfold bind, client_HSet, on_redis, ret, logged. simpl.
      by rewrite <- app_assoc. }
    rewrite Hstep. clear Hstep.
    destruct (invokeTrans word lang e w).1 as [ans [err|]] eqn:Hres.
    + destruct (IH (logged w [EvExec (trans_argv Command word lang e)]))
        as (tried & Hpre & [[Hrun ->]|(ans' & Hne & _ & Hrun)]).
      * exists (e :: engs). split; [done|]. left. split; [|done].
        etrans; [exact Hrun|]. by rewrite logged_logged.
      * exists (e :: tried). split; [by apply prefix_cons|]. right.
        exists ans'. split; [done|]. split; [done|]. etrans; [exact Hrun|]. simpl.
        by rewrite <- app_assoc.
    + exists [e]. split; [apply prefix_cons, prefix_nil|]. right.
      exists ans. split; [by eapply invokeTrans_answer_nonempty|]. done.
Qed.

Lemma fetch_shape word lang (w : World) :
  ∃ tried,
    tried `prefix_of` engines w
    ∧ ((fetch word lang w
        = (word, logged w ((argv_of word lang <$> tried)
                           ++ [EvNotify Inline (all_failed_text word lang)]))
        ∧ tried = engines w)
       ∨ ∃ ans,
           ans ≠ ""
           ∧ tried ≠ []
           ∧ fetch word lang w
             = (ans,
                mkWorld (HSet (redis w) lang word ans) (engines w)
                  (log w ++ (argv_of word lang <$> tried) ++ [EvHSet lang word ans]))).
Proof.
  destruct (fetch_loop_shape word lang (engines w) w)
    as (tried & Hpre & [[Hrun ->]|(ans & Hne & Htried & Hrun)]).
  - exists (engines w). split; [done|]. left. split; [|done].
    unfold fetch, bind, read_engines. rewrite Hrun.
    unfold onTranslationError, emit, ret, logged. simpl. by rewrite <- app_assoc.
  - exists tried. split; [done|]. right. exists ans. split; [done|]. split; [done|].
    unfold fetch, bind, read_engines. by rewrite Hrun.
Qed.

Lemma executions_app (l1 l2 : list Event) :
  executions (l1 ++ l2) = executions l1 ++ executions l2.
Proof. apply omap_app. Qed.

Lemma notifications_app (l1 l2 : list Event) :
  notifications (l1 ++ l2) = notifications l1 ++ notifications l2.
Proof. apply omap_app. Qed.

Lemma executions_execs word lang (tried : list string) :
  executions (argv_of word lang <$> tried) = trans_argv Command word lang <$> tried.
Proof.
  unfold executions. induction tried as [|e tried IH]; [done|].
  simpl. f_equal. exact IH.
Qed.

Lemma notifications_execs word lang (tried : list string) :
  notifications (argv_of word lang <$> tried) = [].
Proof. by induction tried. Qed.

Lemma writes_execs word lang (tried : list string) :
  filter is_write (argv_of word lang <$> tried) = [].
Proof. by induction tried. Qed.

(** X2: whatever the engines answer, [fetch] runs the engines of a prefix
    of the list, in list order, and leaves [engines] as it is.  Either it
    tried the whole list, wrote nothing, sent its one inline failure
    notification and returns [word]; or it stored one non-empty answer
    under [(lang, word)] as its last effect, after at least one run, and
    returns that answer.  So
    an empty string is never cached, and a non-empty word never gets an
    empty reply. *)
Theorem fetch_always word lang (w : World) :
  ∃ tried,
    tried `prefix_of` engines w
    ∧ executions (emitted (fetch word lang) w) = trans_argv Command word lang <$> tried
    ∧ engines (fetch word lang w).2 = engines w
    ∧ (((fetch word lang w).1 = word
        ∧ tried = engines w
        ∧ redis (fetch word lang w).2 = redis w
        ∧ filter is_write (emitted (fetch word lang) w) = []
        ∧ notifications (emitted (fetch word lang) w)
          = [(Inline, all_failed_text word lang)])
       ∨ ((fetch word lang w).1 ≠ ""
          ∧ tried ≠ []
          ∧ redis (fetch word lang w).2
            = HSet (redis w) lang word (fetch word lang w).1
          ∧ filter is_write (emitted (fetch word lang) w)
            = [EvHSet lang word (fetch word lang w).1]
          ∧ notifications (emitted (fetch word lang) w) = []))
    ∧ (word ≠ "" → (fetch word lang w).1 ≠ "").
Proof.
  destruct (fetch_shape word lang w)
    as (tried & Hpre & [[Hrun ->]|(ans & Hne & Htried & Hrun)]).
  - exists (engines w). split; [done|].
    rewrite (emitted_logged _ _ _ _ _ Hrun eq_refl), Hrun.
    rewrite executions_app, notifications_app, filter_app.
    rewrite executions_execs, notifications_execs, writes_execs.
    split; [by rewrite app_nil_r|]. split; [done|]. split; [|done].
    left. repeat split.
  - exists tried. split; [done|].
    rewrite (emitted_logged _ _ _ _ _ Hrun eq_refl), Hrun.
    rewrite executions_app, notifications_app, filter_app.
    rewrite executions_execs, notifications_execs, writes_execs.
    split; [by rewrite app_nil_r|]. split; [done|]. split; [|done].
    right. repeat split; done.
Qed.

Lemma HGet_HSet (c : Client) key field value :
  online c = true → HGet (HSet c key field value) key field = mkStringCmd value None.
Proof.
  intros Hon. unfold HGet, HSet, entry. rewrite Hon. simpl.
  rewrite lookup_insert_eq. simpl. by rewrite lookup_insert_eq.
Qed.

Lemma no_HSet_in_execs word lang (tried : list string) key field value :
  EvHSet key field value ∉ argv_of word lang <$> tried.
Proof. intros Hin. apply list_elem_of_fmap in Hin as (e & Heq & _). discriminate. Qed.

(** X3: read-through.  When a request with a non-empty normalized word and
    language stored a translation and Redis is reachable, repeating the
    request gives the same status and body straight from the cache: the
    only effect of the second request is its [HGet]. *)
Theorem handler_repeat_is_cached word_param lang_param (w : World) :
  let word := ToLower (TrimSpace word_param) in
  let lang := ToLower (TrimSpace lang_param) in
  word ≠ "" →
  lang ≠ "" →
  online (redis w) = true →
  (∃ v, EvHSet lang word v ∈ emitted (translate_handler word_param lang_param) w) →
  translate_handler word_param lang_param (translate_handler word_param lang_param w).2
  = ((translate_handler word_param lang_param w).1,
     logged (translate_handler word_param lang_param w).2 [EvHGet lang word]).
Proof.
  intros word lang Hword Hlang Hon [v Hstored].
  pose proof (translate_handler_run ToLower TrimSpace Command run
                word_param lang_param w Hword Hlang) as Hfirst.
  fold word lang in Hfirst.
  destruct (Err (HGet (redis w) lang word)) as [err|] eqn:Herr.
  - destruct (fetch_shape word lang (logged w [EvHGet lang word]))
      as (tried & Hpre & [[Hrun ->]|(ans & Hne & _ & Hrun)]).
    + exfalso. rewrite Hrun in Hfirst. simpl in Hfirst.
      rewrite logged_logged in Hfirst.
      rewrite (emitted_logged _ _ _ _ _ Hfirst eq_refl) in Hstored.
      apply elem_of_cons in Hstored as [Hstored|Hstored]; [discriminate|].
      apply elem_of_app in Hstored as [Hstored|Hstored].
      * by apply no_HSet_in_execs in Hstored.
      * apply list_elem_of_singleton in Hstored. discriminate.
    + rewrite Hrun in Hfirst. simpl in Hfirst. rewrite Hfirst. simpl.
      pose proof (translate_handler_run ToLower TrimSpace Command run
                    word_param lang_param
                    (mkWorld (HSet (redis w) lang word ans) (engines w)
                       ((log w ++ [EvHGet lang word])
                        ++ (argv_of word lang <$> tried) ++ [EvHSet lang word ans]))
                    Hword Hlang) as Hsecond.
      fold word lang in Hsecond. simpl in Hsecond.
      rewrite HGet_HSet in Hsecond by done. exact Hsecond.
  - exfalso.
    rewrite (emitted_logged _ _ _ _ _ Hfirst eq_refl) in Hstored.
    apply list_elem_of_singleton in Hstored. discriminate.
Qed.

(** X4: the handler answers every request with status 200 and never
    changes [engines].  The only thing it may write is one [HSet] under the
    normalized [(lang, word)], whose value is then the non-empty body it
    returns; it never deletes. *)
Theorem handler_always word_param lang_param (w : World) :
  let word := ToLower (TrimSpace word_param) in
  let lang := ToLower (TrimSpace lang_param) in
  (translate_handler word_param lang_param w).1.1 = StatusOK
  ∧ engines (translate_handler word_param lang_param w).2 = engines w
  ∧ (filter is_write (emitted (translate_handler word_param lang_param) w) = []
     ∨ (filter is_write (emitted (translate_handler word_param lang_param) w)
        = [EvHSet lang word (translate_handler word_param lang_param w).1.2]
        ∧ (translate_handler word_param lang_param w).1.2 ≠ "")).
Proof.
  intros word lang.
  destruct (decide (word = "")) as [Hword|Hword];
    [|destruct (decide (lang = "")) as [Hlang|Hlang]].
  - assert (translate_handler word_param lang_param w = ((StatusOK, ""), w)) as Hrun.
    { unfold translate_handler. fold word. by rewrite decide_True. }
    rewrite (emitted_logged _ w _ w [] Hrun) by (by rewrite app_nil_r).
    rewrite Hrun. auto.
  - assert (translate_handler word_param lang_param w = ((StatusOK, ""), w)) as Hrun.
    { unfold translate_handler. fold word lang.
      rewrite decide_False by done. by rewrite decide_True. }
    rewrite (emitted_logged _ w _ w [] Hrun) by (by rewrite app_nil_r).
    rewrite Hrun. auto.
  - pose proof (translate_handler_run ToLower TrimSpace Command run
                  word_param lang_param w Hword Hlang) as Hrun.
    fold word lang in Hrun.
    destruct (Err (HGet (redis w) lang word)) as [err|].
    + destruct (fetch_shape word lang (logged w [EvHGet lang word]))
        as (tried & Hpre & [[Hfetch ->]|(ans & Hne & _ & Hfetch)]);
        rewrite Hfetch in Hrun; simpl in Hrun.
      * rewrite logged_logged in Hrun.
        rewrite (emitted_logged _ _ _ _ _ Hrun eq_refl), Hrun.
        split; [done|]. split; [done|]. left.
        rewrite !filter_app, writes_execs. done.
      * rewrite (emitted_logged _ w _ _
                   ([EvHGet lang word] ++ (argv_of word lang <$> tried)
                    ++ [EvHSet lang word ans]) Hrun)
          by (simpl; by rewrite <- app_assoc).
        rewrite Hrun. split; [done|]. split; [done|]. right. split; [|done].
        rewrite !filter_app, writes_execs. done.
    + rewrite (emitted_logged _ _ _ _ _ Hrun eq_refl), Hrun. auto.
Qed.

End Fallback.

(** ** Discovery, whatever the tool prints *)

Lemma swap_Permutation (t : list string) (j : nat) (x y : string) :
  t !! j = Some y → y :: <[j := x]> t ≡ₚ x :: t.
Proof.
  revert j. induction t as [|a t IH]; intros j Hj; [done|].
  destruct j as [|j]; simpl in *.
  - injection Hj as ->. apply perm_swap.
  - etrans; [apply perm_swap|]. etrans; [|apply perm_swap].
    apply perm_skip. by apply IH.
Qed.

Lemma find_google_Some (engines : list string) (k n : nat) :
  find_google k engines = Some n →
  ∃ i, n = k + i ∧ engines !! i = Some "google".
Proof.
  revert k. induction engines as [|eng rest IH]; intros k Hfind; [done|].
  simpl in Hfind. destruct (decide (eng = "google")) as [->|Hne].
  - injection Hfind as <-. exists 0. split; [lia|done].
  - destruct (IH _ Hfind) as (i & -> & Hi). exists (S i). split; [lia|done].
Qed.

Lemma find_google_elem (engines : list string) (k : nat) :
  "google" ∈ engines → is_Some (find_google k engines).
Proof.
  revert k. induction engines as [|eng rest IH]; intros k Hin.
  - by apply elem_of_nil in Hin.
  - simpl. destruct (decide (eng = "google")); [by eexists|].
    apply elem_of_cons in Hin as [?|Hin]; [congruence|]. by apply IH.
Qed.

Lemma move_google_first_head (engines : list string) :
  head engines = Some "google" → move_google_first engines = engines.
Proof.
  destruct engines as [|eng rest]; [done|]. simpl. intros [= ->].
  unfold move_google_first, find_google. by rewrite decide_True.
Qed.

Lemma move_google_first_Permutation (engines : list string) :
  move_google_first engines ≡ₚ engines.
Proof.
  unfold move_google_first.
  destruct (find_google 0 engines) as [[|i]|] eqn:Hfind; [done| |done].
  apply find_google_Some in Hfind as (i' & Heq & Hi). simpl in Heq. subst i'.
  unfold swap_with_first. rewrite Hi.
  destruct engines as [|e0 rest]; [done|]. simpl in *.
  by apply swap_Permutation.
Qed.

Lemma move_google_first_front (engines : list string) :
  "google" ∈ engines → head (move_google_first engines) = Some "google".
Proof.
  intros Hin. unfold move_google_first.
  destruct (find_google_elem engines 0 Hin) as [n Hfind]. rewrite Hfind.
  apply find_google_Some in Hfind as (i & Heq & Hi). simpl in Heq. subst n.
  destruct i as [|i].
  - destruct engines; [done|]. simpl in *. done.
  - unfold swap_with_first. rewrite Hi.
    destruct engines as [|e0 rest]; [done|]. done.
Qed.

(** X5: the reordering loop of [getEngines] neither loses nor duplicates
    an engine: its result is a permutation of its input.  ["google"] is
    among the engines exactly when it ends up first, and running the loop
    again changes nothing. *)
Theorem move_google_first_keeps_engines (engines : list string) :
  move_google_first engines ≡ₚ engines
  ∧ length (move_google_first engines) = length engines
  ∧ ("google" ∈ engines ↔ head (move_google_first engines) = Some "google")
  ∧ move_google_first (move_google_first engines) = move_google_first engines.
Proof.
  pose proof (move_google_first_Permutation engines) as Hperm.
  split; [done|]. split; [by rewrite Hperm|]. split; [split|].
  - apply move_google_first_front.
  - intros Hhead. rewrite <- Hperm.
    destruct (move_google_first engines); [done|].
    injection Hhead as ->. apply list_elem_of_here.
  - destruct (decide ("google" ∈ engines)) as [Hin|Hout].
    + by apply move_google_first_head, move_google_first_front.
    + assert (move_google_first engines = engines) as Hsame.
      { unfold move_google_first. by rewrite (find_google_None _ 0 Hout). }
      by rewrite !Hsame.
Qed.

Lemma parse_fold (lines acc : list string) :
  foldl (λ (engines : list string) line,
           let l := Regexp.FindString line in
           if decide (l = "") then engines else (engines ++ [l])%list)
        acc lines
  = acc ++ filter (λ l, l ≠ "") (Regexp.FindString <$> lines).
Proof.
  revert acc. induction lines as [|line lines IH]; intros acc.
  - simpl. by rewrite app_nil_r.
  - cbn [foldl fmap list_fmap]. rewrite IH. cbv zeta. rewrite filter_cons.
    destruct (decide (Regexp.FindString line = "")) as [He|He].
    + by rewrite decide_False by (by intros ?).
    + rewrite decide_True by done. by rewrite <- app_assoc.
Qed.

Lemma parse_engines_filter (data : string) :
  parse_engines data
  = filter (λ l, l ≠ "") (Regexp.FindString <$> Strings.SplitLines data).
Proof. unfold parse_engines. by rewrite parse_fold. Qed.

Lemma take_word_word_only (s : string) :
  word_only (Regexp.take_word s) = true.
Proof.
  unfold word_only. induction s as [|c s IH]; [done|]. simpl.
  destruct (Regexp.word_byte c) eqn:Hc; [|done]. simpl. by rewrite Hc.
Qed.

Lemma FindString_word_only (line : string) :
  word_only (Regexp.FindString line) = true.
Proof.
  induction line as [|c line IH]; [done|]. simpl.
  destruct (Regexp.word_byte c) eqn:Hc; [|done].
  unfold word_only. simpl. rewrite Hc. apply take_word_word_only.
Qed.

Section Discovery.

Variable Command : string.
Variable run : list Event → list string → Process.

(** X6: when the [-S] run fails, [getEngines] returns no list and the
    error, and the discovery goroutine leaves [engines] and the cache as
    they were; its only effects are that run and one notification,
    [[error] failed get engines list: <error>], sent from a goroutine of
    its own. *)
Theorem discover_failure (w : World) (err : error) :
  exit (run (log w) [Command; "-S"]) = Some err →
  getEngines Command run w = (([], Some err), logged w [EvExec [Command; "-S"]])
  ∧ discover Command run w
    = (tt, logged w [EvExec [Command; "-S"];
                     EvNotify Spawned ("[error] failed get engines list: " +:+ err)])
  ∧ engines (discover Command run w).2 = engines w
  ∧ redis (discover Command run w).2 = redis w.
Proof.
  intros Hexit.
  assert (getEngines Command run w = (([], Some err), logged w [EvExec [Command; "-S"]]))
    as Hget.
  { unfold getEngines, bind, exec_Run, ret. by rewrite Hexit. }
  assert (discover Command run w
          = (tt, logged w [EvExec [Command; "-S"];
                           EvNotify Spawned ("[error] failed get engines list: " +:+ err)]))
    as Hrun.
  { unfold discover, bind. rewrite Hget.
    unfold errorNotification, emit, logged. simpl. by rewrite <- app_assoc. }
  split; [done|]. split; [done|]. by rewrite Hrun.
Qed.

(** X7: when the [-S] run succeeds, the discovery goroutine replaces
    [engines] by the reordered list of the first words of the output lines
    and announces it in one [[info] supported engines: ...] notification;
    the cache is untouched.  The new list is a rearrangement of those first
    words, has at most one engine per output line, and each of its engines
    is a non-empty string of letters, digits and underscores. *)
Theorem discover_success (w : World) :
  exit (run (log w) [Command; "-S"]) = None →
  let output := combined (run (log w) [Command; "-S"]) in
  let list := move_google_first (parse_engines output) in
  discover Command run w
  = (tt, mkWorld (redis w) list
           (log w ++ [EvExec [Command; "-S"];
                      EvNotify Spawned
                        ("[info] supported engines: " +:+ Strings.Join list ", ")]))
  ∧ list ≡ₚ filter (λ l, l ≠ "") (Regexp.FindString <$> Strings.SplitLines output)
  ∧ Forall (λ e, e ≠ "" ∧ word_only e = true) list
  ∧ (length list ≤ length (Strings.SplitLines output))%nat.
Proof.
  intros Hexit output list.
  assert (list ≡ₚ filter (λ l, l ≠ "")
                    (Regexp.FindString <$> Strings.SplitLines output)) as Hperm.
  { unfold list. by rewrite move_google_first_Permutation, parse_engines_filter. }
  split; [|split; [done|split]].
  - unfold discover, getEngines, bind, exec_Run, ret. rewrite Hexit.
    unfold infoNotification, emit, write_engines, logged. simpl.
    by rewrite <- app_assoc.
  - rewrite Hperm. apply Forall_forall. intros e He.
    apply list_elem_of_filter in He as [Hne He].
    apply list_elem_of_fmap in He as (line & -> & _).
    split; [done|]. apply FindString_word_only.
  - rewrite Hperm. etrans; [apply length_filter|]. by rewrite length_fmap.
Qed.

End Discovery.

(** ** The notification loop over a whole run *)

Lemma notificationLoop_snoc (bot0 : option BotAPI) (inputs : list Stimulus) (s : Stimulus) :
  notificationLoop bot0 (inputs ++ [s])
  = match s with
    | Received msg =>
        (on_message msg (notificationLoop bot0 inputs).1, (notificationLoop bot0 inputs).2)
    | Ticked send =>
        ((on_tick send (notificationLoop bot0 inputs).1).1,
         (notificationLoop bot0 inputs).2 ++ (on_tick send (notificationLoop bot0 inputs).1).2)
    end.
Proof. unfold notificationLoop. by rewrite foldl_app. Qed.

Lemma received_snoc (inputs : list Stimulus) (s : Stimulus) :
  received (inputs ++ [s])
  = received inputs ++ match s with Received msg => [msg] | Ticked _ => [] end.
Proof. unfold received. rewrite omap_app. by destruct s. Qed.

(** The four ways a tick can go. *)
Lemma on_tick_cases (send : string → option error) (st : Notifier) :
  (batch st = [] ∧ on_tick send st = (st, []))
  ∨ (batch st ≠ [] ∧ bot st = None ∧ on_tick send st = (mkNotifier None [], []))
  ∨ (batch st ≠ [] ∧ bot st ≠ None ∧ send (Strings.Join (batch st) newline) = None
     ∧ on_tick send st = (mkNotifier (bot st) [], [Strings.Join (batch st) newline]))
  ∨ (batch st ≠ [] ∧ bot st ≠ None ∧ send (Strings.Join (batch st) newline) ≠ None
     ∧ on_tick send st = (st, [Strings.Join (batch st) newline])).
Proof.
  unfold on_tick. destruct (batch st) as [|m ms] eqn:Hb; [by left|]. right.
  cbn [length Nat.eqb]. destruct (bot st) as [b|] eqn:Hbot; [|by left].
  right. destruct (send _) as [err|] eqn:Hs; [right|left]; by rewrite ?Hs.
Qed.

Lemma notificationLoop_bot (bot0 : option BotAPI) (inputs : list Stimulus) :
  bot (notificationLoop bot0 inputs).1 = bot0.
Proof.
  induction inputs as [|s inputs IH] using rev_ind; [done|].
  rewrite notificationLoop_snoc. destruct s as [msg|send]; [done|]. simpl.
  destruct (on_tick_cases send (notificationLoop bot0 inputs).1)
    as [[_ ->]|[(_ & Hb & ->)|[(_ & _ & _ & ->)|(_ & _ & _ & ->)]]]; simpl; congruence.
Qed.

(** X8: in any run of the loop, the batch is always a tail of the messages
    received so far, and every text handed to [bot.Send] is the join of a
    non-empty run of consecutive received messages: the loop never invents,
    reorders or splits a message.  Without a bot nothing is ever handed to
    [bot.Send]. *)
Theorem notificationLoop_sends_received (bot0 : option BotAPI) (inputs : list Stimulus) :
  let final := (notificationLoop bot0 inputs).1 in
  let sent := (notificationLoop bot0 inputs).2 in
  bot final = bot0
  ∧ batch final `suffix_of` received inputs
  ∧ Forall (λ text, ∃ pre msgs post,
                msgs ≠ [] ∧ received inputs = pre ++ msgs ++ post
                ∧ text = Strings.Join msgs newline) sent
  ∧ (bot0 = None → sent = []).
Proof.
  cbv zeta. split; [apply notificationLoop_bot|].
  induction inputs as [|s inputs (Hsuf & Hsent & Hnone)] using rev_ind.
  - split; [done|]. split; [constructor|done].
  - pose proof (notificationLoop_bot bot0 inputs) as Hbot.
    rewrite notificationLoop_snoc, received_snoc.
    destruct s as [msg|send]; simpl.
    + split; [by apply suffix_app|]. split; [|done].
      eapply Forall_impl; [exact Hsent|]. simpl.
      intros text (pre & msgs & post & Hne & -> & ->).
      exists pre, msgs, (post ++ [msg]). split; [done|]. split; [|done].
      by rewrite <- !app_assoc.
    + rewrite app_nil_r.
      assert (Forall (λ text, ∃ pre msgs post,
                        msgs ≠ [] ∧ received inputs = pre ++ msgs ++ post
                        ∧ text = Strings.Join msgs newline)
                [Strings.Join (batch (notificationLoop bot0 inputs).1) newline]
              ∨ batch (notificationLoop bot0 inputs).1 = []) as Hnew.
      { destruct (batch (notificationLoop bot0 inputs).1) as [|m ms] eqn:Hb; [by right|].
        left. constructor; [|constructor]. destruct Hsuf as [pre Hpre].
        exists pre, (m :: ms), []. split; [done|]. split; [|done].
        by rewrite app_nil_r. }
      destruct (on_tick_cases send (notificationLoop bot0 inputs).1)
        as [[_ ->]|[(_ & Hb & ->)|[(Hne & Hsome & _ & ->)|(Hne & Hsome & _ & ->)]]]; simpl.
      * rewrite app_nil_r. done.
      * rewrite app_nil_r. split; [apply suffix_nil|]. done.
      * destruct Hnew as [Hnew|?]; [|done].
        split; [apply suffix_nil|]. split; [by apply Forall_app|].
        intros ->. by rewrite Hbot in Hsome.
      * destruct Hnew as [Hnew|?]; [|done].
        split; [done|]. split; [by apply Forall_app|].
        intros ->. by rewrite Hbot in Hsome.
Qed.


Lemma omap_seq_ext {B} (f g : nat → option B) (n : nat) :
  (∀ k, (k < n)%nat → f k = g k) → omap f (seq 0 n) = omap g (seq 0 n).
Proof.
  intros Hfg. induction n as [|n IH]; [done|].
  rewrite seq_S, !omap_app, IH by (intros k Hk; apply Hfg; lia).
  simpl. by rewrite Hfg by lia.
Qed.

Lemma omap_singleton {A B} (f : A → option B) (x : A) :
  omap f [x] = match f x with Some y => [y] | None => [] end.
Proof. done. Qed.

Lemma backlog_at_snoc_lt (inputs : list Stimulus) (s : Stimulus) (k : nat) :
  (k < length inputs)%nat → backlog_at (inputs ++ [s]) k = backlog_at inputs k.
Proof.
  intros Hk. unfold backlog_at.
  by rewrite lookup_app_l, take_app_le by lia.
Qed.

Lemma backlog_at_snoc_here (inputs : list Stimulus) (s : Stimulus) :
  backlog_at (inputs ++ [s]) (length inputs)
  = match s with
    | Ticked _ =>
        match received inputs with
        | [] => None
        | msgs => Some (Strings.Join msgs newline)
        end
    | Received _ => None
    end.
Proof.
  unfold backlog_at. rewrite list_lookup_middle by done.
  rewrite take_app_length. by destruct s.
Qed.

(** A run in which every send fails, tick by tick. *)
Lemma failing_run (b : BotAPI) (inputs : list Stimulus) :
  sends_fail inputs →
  batch (notificationLoop (Some b) inputs).1 = received inputs
  ∧ (notificationLoop (Some b) inputs).2
    = omap (backlog_at inputs) (seq 0 (length inputs)).
Proof.
  unfold sends_fail.
  induction inputs as [|s inputs IH] using rev_ind; intros Hfail.
  - done.
  - apply Forall_app in Hfail as [Hfail Hs]. rewrite Forall_singleton in Hs.
    destruct (IH Hfail) as [Hbatch Hsent].
    pose proof (notificationLoop_bot (Some b) inputs) as Hbot.
    rewrite notificationLoop_snoc, received_snoc, length_app. cbn [length].
    rewrite Nat.add_1_r, seq_S, omap_app.
    rewrite (omap_seq_ext (backlog_at (inputs ++ [s])) (backlog_at inputs))
      by (intros k Hk; by apply backlog_at_snoc_lt).
    rewrite Nat.add_0_l, omap_singleton, backlog_at_snoc_here, <- Hsent.
    destruct s as [msg|send]; simpl.
    + split; [by rewrite Hbatch|by rewrite app_nil_r].
    + rewrite app_nil_r.
      destruct (on_tick_cases send (notificationLoop (Some b) inputs).1)
        as [[Hempty ->]|[(_ & Hb & _)|[(_ & _ & Hgood & _)|(Hne & _ & _ & ->)]]]; simpl.
      * split; [done|]. by rewrite <- Hbatch, Hempty.
      * congruence.
      * destruct (Hs _ Hgood).
      * split; [done|]. rewrite <- Hbatch.
        by destruct (batch (notificationLoop (Some b) inputs).1).
Qed.

(** X10: with a bot whose every send fails nothing is lost and every tick
    retries in full.  The batch is all the messages received.  The texts
    handed to [bot.Send] are, in order and one per tick, what the ticks
    that found something received hand over, each the join of everything
    received before that tick: a tick at position [k] with messages before
    it sends exactly that join, and nothing else is ever sent. *)
Theorem notificationLoop_keeps_undelivered (b : BotAPI) (inputs : list Stimulus) :
  sends_fail inputs →
  batch (notificationLoop (Some b) inputs).1 = received inputs
  ∧ (notificationLoop (Some b) inputs).2
    = omap (backlog_at inputs) (seq 0 (length inputs))
  ∧ (∀ k send,
       inputs !! k = Some (Ticked send) →
       received (take k inputs) ≠ [] →
       Strings.Join (received (take k inputs)) newline
       ∈ (notificationLoop (Some b) inputs).2)
  ∧ (∀ text,
       text ∈ (notificationLoop (Some b) inputs).2 →
       ∃ k send,
         inputs !! k = Some (Ticked send)
         ∧ received (take k inputs) ≠ []
         ∧ text = Strings.Join (received (take k inputs)) newline).
Proof.
  intros Hfail. destruct (failing_run b inputs Hfail) as [Hbatch Hsent].
  split; [done|]. split; [done|]. rewrite Hsent. split.
  - intros k send Hk Hne. apply list_elem_of_omap. exists k. split.
    + apply elem_of_seq. apply lookup_lt_Some in Hk. lia.
    + unfold backlog_at. rewrite Hk.
      by destruct (received (take k inputs)).
  - intros text Hin. apply list_elem_of_omap in Hin as (k & _ & Hk).
    unfold backlog_at in Hk.
    destruct (inputs !! k) as [[msg|send]|] eqn:Hat; [done| |done].
    exists k, send. split; [done|].
    destruct (received (take k inputs)) as [|m ms]; [done|].
    injection Hk as <-. done.
Qed.

(** ** The janitor: frame and net effect *)

Lemma reports_length (P : string → bool) (headline : nat → string) (c : Client)
    (notes : list (SendMode * string)) :
  reports P headline c notes → (length notes ≤ 1)%nat.
Proof.
  unfold reports. destruct (_ =? _)%nat.
  - intros ->. simpl. lia.
  - intros (lines & -> & _). simpl. lia.
Qed.

(** What a sweep leaves alone, whether or not Redis is reachable. *)
Lemma sweep_frame (P : string → bool) (headline : nat → string) (w : World) :
  engines (sweep P headline w).2 = engines w
  ∧ online (redis (sweep P headline w).2) = online (redis w)
  ∧ (∀ l g v, entry (redis (sweep P headline w).2) l g = Some v
              → entry (redis w) l g = Some v)
  ∧ executions (emitted (sweep P headline) w) = []
  ∧ (length (notifications (emitted (sweep P headline) w)) ≤ 1)%nat
  ∧ log (sweep P headline w).2 = log w ++ emitted (sweep P headline) w.
Proof.
  destruct (online (redis w)) eqn:Hon.
  - destruct (sweep_online P headline w Hon) as (Heng & Hon' & Hentry & Hrep & Hex & Hlog).
    split; [done|]. split; [done|]. split; [|split; [done|split; [|done]]].
    + intros l g v. rewrite Hentry. destruct (entry (redis w) l g) as [v0|]; [|done].
      simpl. by destruct (P v0).
    + by eapply reports_length.
  - rewrite (emitted_logged _ _ _ _ _ (sweep_offline P headline w Hon) eq_refl).
    rewrite sweep_offline by done. simpl. repeat split; try done. lia.
Qed.

Section Janitor.

Variable graphic_ranges : rune → bool.

Local Abbreviation cleanup := (cleanup graphic_ranges).

Lemma cleanup_sweeps (w : World) :
  cleanup w
  = sweep (non_printable graphic_ranges) nonprintable_headline
      (sweep is_empty empty_headline w).2.
Proof.
  by rewrite cleanup_run, removeNonPrintableTranslations_sweep,
    removeEmptyTranslations_sweep.
Qed.

Lemma cleanup_emitted (w : World) :
  emitted cleanup w
  = emitted (sweep is_empty empty_headline) w
    ++ emitted (sweep (non_printable graphic_ranges) nonprintable_headline)
         (sweep is_empty empty_headline w).2.
Proof.
  destruct (sweep_frame is_empty empty_headline w) as (_ & _ & _ & _ & _ & Hlog1).
  destruct (sweep_frame (non_printable graphic_ranges) nonprintable_headline
              (sweep is_empty empty_headline w).2) as (_ & _ & _ & _ & _ & Hlog2).
  unfold emitted at 1. rewrite cleanup_sweeps, Hlog2, Hlog1.
  by rewrite <- app_assoc, drop_app_length.
Qed.

Lemma cleanup_entries (w : World) lang word :
  online (redis w) = true →
  entry (redis (cleanup w).2) lang word
  = surviving (invalid graphic_ranges) (entry (redis w) lang word).
Proof.
  intros Hon. rewrite cleanup_sweeps.
  destruct (sweep_online is_empty empty_headline w Hon) as (_ & Hon1 & Hentry1 & _).
  destruct (sweep_online (non_printable graphic_ranges) nonprintable_headline _ Hon1)
    as (_ & _ & Hentry2 & _).
  rewrite Hentry2, Hentry1. unfold invalid.
  destruct (entry (redis w) lang word) as [v|]; [|done]. simpl.
  by destruct (is_empty v).
Qed.

Lemma non_printable_runes (value : string) :
  non_printable graphic_ranges value = false
  ↔ Forall (λ char, Unicode.IsGraphic graphic_ranges char = true) (Utf8.runes value).
Proof.
  unfold non_printable. induction (Utf8.runes value) as [|char chars IH]; simpl.
  - split; [constructor|done].
  - rewrite Forall_cons, <- IH.
    destruct (Unicode.IsGraphic graphic_ranges char); simpl; split; try done.
    + by intros [_ ?].
    + by intros [? _].
Qed.

(** X11: when Redis cannot be reached the janitor does nothing: each sweep
    issues its [KEYS *], gets no key, deletes nothing and reports nothing. *)
Theorem cleanup_unreachable (w : World) :
  online (redis w) = false →
  cleanup w = (tt, logged w [EvKeys "*"; EvKeys "*"])
  ∧ redis (cleanup w).2 = redis w
  ∧ notifications (emitted cleanup w) = [].
Proof.
  intros Hoff.
  assert (cleanup w = (tt, logged w [EvKeys "*"; EvKeys "*"])) as Hrun.
  { rewrite cleanup_sweeps, (sweep_offline is_empty) by done. simpl.
    rewrite sweep_offline by done. by rewrite logged_logged. }
  split; [done|]. rewrite (emitted_logged _ _ _ _ _ Hrun eq_refl).
  by rewrite Hrun.
Qed.

(** X12: the net effect of the janitor on a reachable cache.  An entry is
    there afterwards exactly when it was there before with a value that is
    neither empty nor contains a non-graphic rune, and then with the same
    value; so every value left is non-empty and all its runes are
    graphic. *)
Theorem cleanup_net_effect (w : World) :
  online (redis w) = true →
  (∀ lang word,
     entry (redis (cleanup w).2) lang word
     = surviving (invalid graphic_ranges) (entry (redis w) lang word))
  ∧ (∀ lang word value,
       entry (redis (cleanup w).2) lang word = Some value →
       entry (redis w) lang word = Some value
       ∧ value ≠ ""
       ∧ Forall (λ char, Unicode.IsGraphic graphic_ranges char = true) (Utf8.runes value))
  ∧ no_empty_values (redis (cleanup w).2).
Proof.
  intros Hon.
  assert (∀ lang word value,
            entry (redis (cleanup w).2) lang word = Some value →
            entry (redis w) lang word = Some value
            ∧ value ≠ ""
            ∧ Forall (λ char, Unicode.IsGraphic graphic_ranges char = true)
                (Utf8.runes value)) as Hleft.
  { intros lang word value. rewrite cleanup_entries by done.
    destruct (entry (redis w) lang word) as [v|]; [|done]. simpl.
    destruct (invalid graphic_ranges v) eqn:Hv; [done|]. intros [= <-].
    unfold invalid in Hv. apply orb_false_elim in Hv as [He Hn].
    split; [done|]. split; [|by apply non_printable_runes].
    unfold is_empty in He. by apply bool_decide_eq_false in He. }
  split; [intros; by apply cleanup_entries|]. split; [done|].
  intros lang word value Hv. by destruct (Hleft _ _ _ Hv) as (_ & ? & _).
Qed.

(** X13: whatever the cache holds and whether or not Redis is reachable,
    the janitor leaves [engines] alone, runs no process, sends at most two
    notifications, and never adds an entry or changes a value: what is in
    the cache afterwards was there before. *)
Theorem cleanup_frame (w : World) :
  engines (cleanup w).2 = engines w
  ∧ online (redis (cleanup w).2) = online (redis w)
  ∧ executions (emitted cleanup w) = []
  ∧ (length (notifications (emitted cleanup w)) ≤ 2)%nat
  ∧ ∀ lang word value,
      entry (redis (cleanup w).2) lang word = Some value →
      entry (redis w) lang word = Some value.
Proof.
  destruct (sweep_frame is_empty empty_headline w)
    as (Heng1 & Hon1 & Hsub1 & Hex1 & Hn1 & _).
  destruct (sweep_frame (non_printable graphic_ranges) nonprintable_headline
              (sweep is_empty empty_headline w).2)
    as (Heng2 & Hon2 & Hsub2 & Hex2 & Hn2 & _).
  rewrite cleanup_emitted, executions_app, notifications_app, length_app.
  rewrite cleanup_sweeps, Hex1, Hex2.
  split; [congruence|]. split; [congruence|]. split; [done|]. split; [lia|].
  intros lang word value Hv. by apply Hsub1, Hsub2.
Qed.

End Janitor.

(** ** Serving from the cache *)

Lemma entry_HSet (c : Client) key field value l g :
  online c = true →
  entry (HSet c key field value) l g
  = if bool_decide (l = key ∧ g = field) then Some value else entry c l g.
Proof.
  intros Hon. unfold HSet, entry. rewrite Hon. simpl.
  destruct (decide (l = key)) as [->|Hl].
  - rewrite lookup_insert_eq. simpl. destruct (decide (g = field)) as [->|Hg].
    + rewrite lookup_insert_eq. by rewrite bool_decide_eq_true_2.
    + rewrite lookup_insert_ne by done.
      rewrite bool_decide_eq_false_2 by (by intros [_ ?]).
      by destruct (hashes c !! key).
  - rewrite lookup_insert_ne by done.
    by rewrite bool_decide_eq_false_2 by (by intros [? _]).
Qed.

Lemma HSet_offline (c : Client) key field value :
  online c = false → HSet c key field value = c.
Proof. intros Hoff. unfold HSet. by rewrite Hoff. Qed.

Lemma no_empty_values_HSet (c : Client) key field value :
  value ≠ "" → no_empty_values c → no_empty_values (HSet c key field value).
Proof.
  intros Hvalue Hc. destruct (online c) eqn:Hon.
  - intros l g v. rewrite entry_HSet by done.
    destruct (bool_decide (l = key ∧ g = field)); [by intros [= <-]|apply Hc].
  - by rewrite HSet_offline.
Qed.

Lemma HGet_hit (c : Client) key field :
  Err (HGet c key field) = None →
  online c = true ∧ entry c key field = Some (Val (HGet c key field)).
Proof.
  unfold HGet. destruct (online c); [|done].
  by destruct (entry c key field).
Qed.

Lemma HGet_offline (c : Client) key field :
  online c = false → Err (HGet c key field) ≠ None.
Proof. intros Hoff. unfold HGet. by rewrite Hoff. Qed.

Section Serving.

Variable ToLower TrimSpace : string → string.
Variable Command : string.
Variable run : list Event → list string → Process.
Variable graphic_ranges : rune → bool.

Local Abbreviation fetch := (fetch ToLower TrimSpace Command run).
Local Abbreviation translate_handler := (translate_handler ToLower TrimSpace Command run).
Local Abbreviation argv_of word lang := (EvExec ∘ trans_argv Command word lang).

(** X14: the handler keeps the cache free of empty values, and on such a
    cache it never answers a request for a non-empty word and language
    with an empty body: a cached value is non-empty, an engine's answer is
    non-empty, and the last resort is the word itself. *)
Theorem handler_keeps_values_nonempty word_param lang_param (w : World) :
  no_empty_values (redis w) →
  no_empty_values (redis (translate_handler word_param lang_param w).2)
  ∧ (ToLower (TrimSpace word_param) ≠ "" →
     ToLower (TrimSpace lang_param) ≠ "" →
     (translate_handler word_param lang_param w).1.2 ≠ "").
Proof.
  intros Hcache.
  set (word := ToLower (TrimSpace word_param)).
  set (lang := ToLower (TrimSpace lang_param)).
  destruct (decide (word = "")) as [Hword|Hword];
    [|destruct (decide (lang = "")) as [Hlang|Hlang]].
  - assert (translate_handler word_param lang_param w = ((StatusOK, ""), w)) as ->.
    { unfold translate_handler. fold word. by rewrite decide_True. }
    done.
  - assert (translate_handler word_param lang_param w = ((StatusOK, ""), w)) as ->.
    { unfold translate_handler. fold word lang.
      rewrite decide_False by done. by rewrite decide_True. }
    done.
  - pose proof (translate_handler_run ToLower TrimSpace Command run
                  word_param lang_param w Hword Hlang) as Hrun.
    fold word lang in Hrun.
    destruct (Err (HGet (redis w) lang word)) as [err|] eqn:Herr.
    + destruct (fetch_shape ToLower TrimSpace Command run word lang
                  (logged w [EvHGet lang word]))
        as (tried & Hpre & [[Hfetch ->]|(ans & Hne & _ & Hfetch)]);
        rewrite Hfetch in Hrun; rewrite Hrun; simpl.
      * done.
      * split; [by apply no_empty_values_HSet|done].
    + rewrite Hrun. simpl. split; [done|]. intros _ _.
      apply HGet_hit in Herr as [_ Hv]. by eapply Hcache.
Qed.

(** X15: after the janitor has run, a request answered from the cache
    gets the value that was cached before the janitor ran, and that value
    is neither empty nor contains a non-graphic rune. *)
Theorem cache_hit_after_cleanup word_param lang_param (w : World) :
  let after := (cleanup graphic_ranges w).2 in
  let word := ToLower (TrimSpace word_param) in
  let lang := ToLower (TrimSpace lang_param) in
  word ≠ "" →
  lang ≠ "" →
  Err (HGet (redis after) lang word) = None →
  translate_handler word_param lang_param after
  = ((StatusOK, Val (HGet (redis w) lang word)), logged after [EvHGet lang word])
  ∧ Err (HGet (redis w) lang word) = None
  ∧ Val (HGet (redis w) lang word) ≠ ""
  ∧ non_printable graphic_ranges (Val (HGet (redis w) lang word)) = false.
Proof.
  intros after word lang Hword Hlang Hhit.
  pose proof (translate_handler_run ToLower TrimSpace Command run
                word_param lang_param after Hword Hlang) as Hrun.
  fold word lang in Hrun. rewrite Hhit in Hrun.
  destruct (HGet_hit _ _ _ Hhit) as [Hon' Hv].
  assert (online (redis w) = true) as Hon.
  { destruct (sweep_frame is_empty empty_headline w) as (_ & Hon1 & _).
    destruct (sweep_frame (non_printable graphic_ranges) nonprintable_headline
                (sweep is_empty empty_headline w).2) as (_ & Hon2 & _).
    unfold after in Hon'. rewrite cleanup_sweeps in Hon'. congruence. }
  unfold after in Hv at 1. rewrite cleanup_entries in Hv by done.
  destruct (entry (redis w) lang word) as [v|] eqn:Hbefore; [|done]. simpl in Hv.
  destruct (invalid graphic_ranges v) eqn:Hvalid; [done|].
  injection Hv as Hv.
  assert (HGet (redis w) lang word = mkStringCmd v None) as Hget.
  { unfold HGet. by rewrite Hon, Hbefore. }
  unfold invalid in Hvalid. apply orb_false_elim in Hvalid as [He Hn].
  rewrite Hget. simpl. rewrite Hrun, <- Hv. split; [done|]. split; [done|].
  split; [|done]. unfold is_empty in He. by apply bool_decide_eq_false in He.
Qed.

(** X16: with Redis unreachable every request for a non-empty word and
    language goes to the engines: the handler runs a non-empty prefix of
    [engines] when there is an engine at all, the store is left as it was,
    and the body is still not empty. *)
Theorem handler_without_redis word_param lang_param (w : World) :
  let word := ToLower (TrimSpace word_param) in
  let lang := ToLower (TrimSpace lang_param) in
  word ≠ "" →
  lang ≠ "" →
  online (redis w) = false →
  redis (translate_handler word_param lang_param w).2 = redis w
  ∧ (translate_handler word_param lang_param w).1.2 ≠ ""
  ∧ ∃ tried,
      tried `prefix_of` engines w
      ∧ (engines w ≠ [] → tried ≠ [])
      ∧ executions (emitted (translate_handler word_param lang_param) w)
        = trans_argv Command word lang <$> tried.
Proof.
  intros word lang Hword Hlang Hoff.
  pose proof (translate_handler_run ToLower TrimSpace Command run
                word_param lang_param w Hword Hlang) as Hrun.
  fold word lang in Hrun.
  destruct (Err (HGet (redis w) lang word)) as [err|] eqn:Herr;
    [|by apply HGet_offline in Herr].
  destruct (fetch_shape ToLower TrimSpace Command run word lang
              (logged w [EvHGet lang word]))
    as (tried & Hpre & [[Hfetch ->]|(ans & Hne & Htried & Hfetch)]);
    rewrite Hfetch in Hrun; simpl in Hrun.
  - rewrite logged_logged in Hrun.
    rewrite (emitted_logged _ _ _ _ _ Hrun eq_refl), Hrun. simpl.
    split; [done|]. split; [done|]. exists (engines w).
    split; [done|]. split; [done|].
    rewrite executions_app, executions_execs. simpl. by rewrite app_nil_r.
  - rewrite (emitted_logged _ w _ _
               ([EvHGet lang word] ++ (argv_of word lang <$> tried)
                ++ [EvHSet lang word ans]) Hrun)
      by (simpl; by rewrite <- app_assoc).
    rewrite Hrun. simpl. split; [by apply HSet_offline|]. split; [done|].
    exists tried. split; [done|]. split; [done|].
    rewrite executions_app, executions_execs. simpl. by rewrite app_nil_r.
Qed.

End Serving.

(** ** Non-printable values of ASCII text *)

Lemma decode_all_ascii (fuel : nat) (p : list Z) :
  forallb (λ b, (b <? 0x80)%Z) p = true →
  (length p ≤ fuel)%nat →
  Utf8.decode_all fuel p = p.
Proof.
  revert fuel. induction p as [|b p IH]; intros fuel Hascii Hfuel.
  - by destruct fuel.
  - destruct fuel as [|fuel]; [simpl in Hfuel; lia|].
    simpl in Hascii. apply andb_prop in Hascii as [Hb Hp].
    cbn [Utf8.decode_all Utf8.DecodeRune]. rewrite Hb. cbn [drop].
    rewrite IH; [done|done|simpl in Hfuel; lia].
Qed.

Lemma bytes_nonneg (value : string) : Forall (λ b, (0 ≤ b)%Z) (Utf8.bytes value).
Proof.
  unfold Utf8.bytes. apply Forall_fmap, Forall_true. intros a. simpl.
  unfold byte_val. lia.
Qed.

Lemma ascii_graphic (graphic_ranges : rune → bool) (b : Z) :
  (0 ≤ b)%Z → (b <? 0x80)%Z = true →
  negb (Unicode.IsGraphic graphic_ranges b) = control_byte b.
Proof.
  intros Hpos Hb. apply Z.ltb_lt in Hb.
  unfold Unicode.IsGraphic, Unicode.latin1_graphic, Utf8.between, control_byte.
  destruct (Z.leb_spec 0 b), (Z.leb_spec b 0xFF), (Z.leb_spec 0x20 b),
    (Z.leb_spec b 0x7E), (Z.leb_spec 0xA0 b), (Z.eqb_spec b 0xAD),
    (Z.ltb_spec b 0x20), (Z.eqb_spec b 0x7F); simpl; try reflexivity; lia.
Qed.

Lemma ascii_control (graphic_ranges : rune → bool) (p : list Z) :
  Forall (λ b, (0 ≤ b)%Z) p →
  forallb (λ b, (b <? 0x80)%Z) p = true →
  existsb (λ char, negb (Unicode.IsGraphic graphic_ranges char)) p
  = existsb control_byte p.
Proof.
  induction 1 as [|b p Hb Hp IH]; [done|]. intros Hascii.
  simpl in Hascii. apply andb_prop in Hascii as [Hlow Hrest].
  simpl. rewrite ascii_graphic by done. by rewrite IH.
Qed.

(** X17: on a value of ASCII bytes the [range] loop visits the bytes
    themselves, and the second sweep removes the value exactly when one of
    them is a control byte (below 0x20, or 0x7F), whatever the Unicode
    tables above Latin-1 say. *)
Theorem non_printable_ascii (graphic_ranges : rune → bool) (value : string) :
  ascii_only value = true →
  Utf8.runes value = Utf8.bytes value
  ∧ non_printable graphic_ranges value = existsb control_byte (Utf8.bytes value).
Proof.
  unfold ascii_only. intros Hascii.
  assert (Utf8.runes value = Utf8.bytes value) as Hrunes.
  { unfold Utf8.runes. apply decode_all_ascii; [exact Hascii|reflexivity]. }
  split; [done|]. unfold non_printable. rewrite Hrunes.
  apply ascii_control; [apply bytes_nonneg|exact Hascii].
Qed.

(** ** Discovery followed by a request *)

Section Preferred.

Variable ToLower TrimSpace : string → string.
Variable Command : string.
Variable run : list Event → list string → Process.

Local Abbreviation fetch := (fetch ToLower TrimSpace Command run).
Local Abbreviation argv_of word lang := (EvExec ∘ trans_argv Command word lang).

(** X18: when the [-S] listing has a line whose first word is [google],
    every [fetch] that follows the discovery starts with the engine
    [google], wherever that line stood in the listing. *)
Theorem google_tried_first (w : World) word lang :
  exit (run (log w) [Command; "-S"]) = None →
  "google" ∈ Regexp.FindString
               <$> Strings.SplitLines (combined (run (log w) [Command; "-S"])) →
  head (engines (discover Command run w).2) = Some "google"
  ∧ head (executions (emitted (fetch word lang) (discover Command run w).2))
    = Some (trans_argv Command word lang "google").
Proof.
  intros Hexit Hlisted.
  set (list := move_google_first
                 (parse_engines (combined (run (log w) [Command; "-S"])))).
  assert (engines (discover Command run w).2 = list) as Hengines.
  { unfold discover, getEngines, bind, exec_Run, ret. by rewrite Hexit. }
  assert (head list = Some "google") as Hhead.
  { apply move_google_first_front. rewrite parse_engines_filter.
    apply list_elem_of_filter. split; [done|exact Hlisted]. }
  rewrite Hengines. split; [done|].
  destruct (fetch_shape ToLower TrimSpace Command run word lang (discover Command run w).2)
    as (tried & Hpre & [[Hrun ->]|(ans & Hne & Htried & Hrun)]);
    rewrite (emitted_logged _ _ _ _ _ Hrun eq_refl), executions_app, executions_execs.
  - rewrite Hengines. destruct list as [|e rest]; [done|].
    injection Hhead as ->. done.
  - rewrite Hengines in Hpre. destruct Hpre as [rest Hpre].
    destruct tried as [|e tried]; [done|]. rewrite Hpre in Hhead.
    injection Hhead as ->. done.
Qed.

End Preferred.

(** ** The further properties at concrete inputs *)

Lemma handler_repeat_is_cached_witness :
  let handler := translate_handler Strings.ToLowerASCII Strings.TrimSpaceASCII
                   "/usr/bin/trans" demo_run " Cat " "DE" in
  (handler demo_world).1 = (StatusOK, "katze")
  ∧ handler (handler demo_world).2
    = ((handler demo_world).1, logged (handler demo_world).2 [EvHGet "de" "cat"]).
Proof.
  intros handler.
  assert (Strings.ToLowerASCII (Strings.TrimSpaceASCII " Cat ") ≠ "") as Hword
    by (vm_compute; discriminate).
  assert (Strings.ToLowerASCII (Strings.TrimSpaceASCII "DE") ≠ "") as Hlang
    by (vm_compute; discriminate).
  assert (emitted handler demo_world
          = [EvHGet "de" "cat";
             EvExec (trans_argv "/usr/bin/trans" "cat" "de" "google");
             EvExec (trans_argv "/usr/bin/trans" "cat" "de" "bing");
             EvHSet "de" "cat" "katze"]) as Hlog by (vm_compute; reflexivity).
  split; [vm_compute; reflexivity|].
  apply (handler_repeat_is_cached Strings.ToLowerASCII Strings.TrimSpaceASCII
           "/usr/bin/trans" demo_run " Cat " "DE" demo_world Hword Hlang eq_refl).
  exists "katze". fold handler. rewrite Hlog.
  do 3 apply list_elem_of_further. apply list_elem_of_here.
Defined.

Lemma discover_failure_witness :
  exit (broken_run (log demo_world) ["/usr/bin/trans"; "-S"])
  = Some "fork/exec /usr/bin/trans: no such file or directory"
  ∧ engines (discover "/usr/bin/trans" broken_run demo_world).2 = engines demo_world.
Proof.
  split; [reflexivity|].
  apply (discover_failure "/usr/bin/trans" broken_run demo_world
           "fork/exec /usr/bin/trans: no such file or directory" eq_refl).
Defined.

Lemma discover_success_witness :
  exit (demo_run (log demo_world) ["/usr/bin/trans"; "-S"]) = None
  ∧ engines (discover "/usr/bin/trans" demo_run demo_world).2
    = ["google"; "bing"; "aspell"].
Proof.
  split; [reflexivity|].
  rewrite (proj1 (discover_success "/usr/bin/trans" demo_run demo_world eq_refl)).
  reflexivity.
Defined.


Lemma notificationLoop_keeps_undelivered_witness :
  let failing := λ _ : string, Some "Bad Gateway" in
  let inputs := [Received "a"; Ticked failing; Received "b"; Ticked failing] in
  sends_fail inputs
  ∧ batch (notificationLoop (Some TelegramBot) inputs).1 = ["a"; "b"]
  ∧ (notificationLoop (Some TelegramBot) inputs).2 = ["a"; "a" +:+ newline +:+ "b"].
Proof.
  intros failing inputs.
  assert (sends_fail inputs) as Hfail
    by (repeat constructor; simpl; intros; discriminate).
  split; [exact Hfail|].
  destruct (notificationLoop_keeps_undelivered TelegramBot inputs Hfail)
    as (Hbatch & Hsent & _).
  rewrite Hbatch, Hsent. split; reflexivity.
Defined.

Lemma cleanup_unreachable_witness :
  let w := mkWorld (mkClient false {[ "en" := {[ "a" := "" ]} ]}) ["google"] [] in
  online (redis w) = false
  ∧ cleanup (λ _, true) w = (tt, logged w [EvKeys "*"; EvKeys "*"]).
Proof.
  intros w. split; [reflexivity|].
  apply (cleanup_unreachable (λ _, true) w eq_refl).
Defined.

Lemma cleanup_net_effect_witness :
  online (redis scenario_world) = true
  ∧ no_empty_values (redis (cleanup (λ _, true) scenario_world).2).
Proof.
  split; [reflexivity|].
  apply (cleanup_net_effect (λ _, true) scenario_world eq_refl).
Defined.

Lemma handler_keeps_values_nonempty_witness :
  no_empty_values (redis demo_world)
  ∧ (translate_handler Strings.ToLowerASCII Strings.TrimSpaceASCII "/usr/bin/trans"
       demo_run " Cat " "DE" demo_world).1.2 ≠ "".
Proof.
  assert (no_empty_values (redis demo_world)) as Hcache.
  { intros key field value. unfold entry, demo_world. cbn [redis hashes].
    destruct (decide (key = "de")) as [->|Hkey].
    - rewrite lookup_singleton_eq. cbn [mbind option_bind].
      intros Hv. apply lookup_singleton_Some in Hv as [_ <-]. discriminate.
    - rewrite lookup_singleton_ne by done. discriminate. }
  split; [exact Hcache|].
  apply (handler_keeps_values_nonempty Strings.ToLowerASCII Strings.TrimSpaceASCII
           "/usr/bin/trans" demo_run " Cat " "DE" demo_world Hcache);
    vm_compute; discriminate.
Defined.

Lemma cache_hit_after_cleanup_witness :
  let after := (cleanup (λ _, true) scenario_world).2 in
  Err (HGet (redis after) "en" "b") = None
  ∧ (translate_handler Strings.ToLowerASCII Strings.TrimSpaceASCII "/usr/bin/trans"
       demo_run " B " "EN" after).1 = (StatusOK, "ok").
Proof.
  intros after. subst after.
  assert (Strings.ToLowerASCII (Strings.TrimSpaceASCII " B ") ≠ "") as Hword
    by (vm_compute; discriminate).
  assert (Strings.ToLowerASCII (Strings.TrimSpaceASCII "EN") ≠ "") as Hlang
    by (vm_compute; discriminate).
  assert (Err (HGet (redis (cleanup (λ _, true) scenario_world).2) "en" "b") = None)
    as Hhit by (vm_compute; reflexivity).
  split; [exact Hhit|].
  rewrite (proj1 (cache_hit_after_cleanup Strings.ToLowerASCII Strings.TrimSpaceASCII
                    "/usr/bin/trans" demo_run (λ _, true) " B " "EN" scenario_world
                    Hword Hlang Hhit)).
  vm_compute. reflexivity.
Defined.

Lemma handler_without_redis_witness :
  let w := mkWorld (mkClient false ∅) ["google"; "bing"] [] in
  online (redis w) = false
  ∧ redis (translate_handler Strings.ToLowerASCII Strings.TrimSpaceASCII
             "/usr/bin/trans" demo_run " Cat " "DE" w).2 = redis w.
Proof.
  intros w.
  assert (Strings.ToLowerASCII (Strings.TrimSpaceASCII " Cat ") ≠ "") as Hword
    by (vm_compute; discriminate).
  assert (Strings.ToLowerASCII (Strings.TrimSpaceASCII "DE") ≠ "") as Hlang
    by (vm_compute; discriminate).
  split; [reflexivity|].
  apply (handler_without_redis Strings.ToLowerASCII Strings.TrimSpaceASCII
           "/usr/bin/trans" demo_run " Cat " "DE" w Hword Hlang eq_refl).
Defined.

Lemma non_printable_ascii_witness :
  let value := String (Ascii.ascii_of_nat 1) "bad" in
  ascii_only value = true
  ∧ non_printable (λ _, false) value = true.
Proof.
  intros value. split; [reflexivity|].
  rewrite (proj2 (non_printable_ascii (λ _, false) value eq_refl)).
  reflexivity.
Defined.

Lemma google_tried_first_witness :
  exit (demo_run (log demo_world) ["/usr/bin/trans"; "-S"]) = None
  ∧ head (engines (discover "/usr/bin/trans" demo_run demo_world).2) = Some "google".
Proof.
  assert ("google" ∈ Regexp.FindString
                       <$> Strings.SplitLines
                             (combined (demo_run (log demo_world) ["/usr/bin/trans"; "-S"])))
    as Hlisted.
  { assert (Regexp.FindString
              <$> Strings.SplitLines
                    (combined (demo_run (log demo_world) ["/usr/bin/trans"; "-S"]))
            = ["aspell"; "bing"; "google"; ""]) as -> by reflexivity.
    do 2 apply list_elem_of_further. apply list_elem_of_here. }
  split; [reflexivity|].
  apply (google_tried_first Strings.ToLowerASCII Strings.TrimSpaceASCII
           "/usr/bin/trans" demo_run demo_world "cat" "de" eq_refl Hlisted).
Defined.
